(** * UrlFragmentFetchServer: a shallow embedding of urlfragmentfetchserver.py

    The development follows the Python module top to bottom.  The first part
    models the pieces of the Python runtime the module calls (sequence
    methods, the UTF-8 codec, [urllib.parse], [asyncio] streams); the second
    part embeds the class [UrlFragmentFetchServer] itself: its fields, the
    connection handler, the timeout coroutine and the event loop that
    interleaves them.  The theorems come last. *)

From Stdlib Require Import List NArith ZArith Lia Bool.
From Stdlib Require Import Strings.Byte String Ascii DecimalString.
Import ListNotations.

Set Implicit Arguments.

(** ** Data: bytes, strings, exceptions *)

(** A Python [bytes] object is a list of octets; a Python [str] is a list of
    Unicode code points. *)
Definition bytes := list byte.
Definition str := list N.

Definition ord (c : byte) : N := Byte.to_N c.

(** [chr8 n] is the octet of value [n]; it is only ever applied to [n < 256]. *)
Definition chr8 (n : N) : byte :=
  match Byte.of_N n with
  | Some c => c
  | None => x00
  end.

(** Literals: [bytes_lit "GET"] stands for [b'GET'] and [str_lit "GET"] for
    ['GET'] (ASCII text only). *)
Definition bytes_lit (s : string) : bytes := list_byte_of_string s.
Definition str_lit (s : string) : str := map ord (list_byte_of_string s).
Arguments bytes_lit : simpl never.
Arguments str_lit : simpl never.

Definition CR : byte := x0d.
Definition LF : byte := x0a.
Definition CRLF : bytes := [CR; LF].
Definition CRLFCRLF : bytes := [CR; LF; CR; LF].

(** The exceptions the modelled code can raise. *)
Inductive exn :=
| UnicodeDecodeError
| UnicodeEncodeError
| ValueError
| IndexError
| AttributeError
| IncompleteReadError
| LimitOverrunError.

(** A computation that returns or raises. *)
Inductive result (A : Type) :=
| Ok (a : A)
| Raise (e : exn).
Arguments Ok {A} a.
Arguments Raise {A} e.

Definition bind {A B} (r : result A) (k : A -> result B) : result B :=
  match r with
  | Ok a => k a
  | Raise e => Raise e
  end.

Notation "x <- r ;; k" := (bind r (fun x => k))
  (at level 61, r at next level, right associativity).
Notation "' p <- r ;; k" := (bind r (fun x => let p := x in k))
  (at level 61, p pattern, r at next level, right associativity).

(** ** Sequence methods shared by [str] and [bytes] *)

Section Sequences.
Variable A : Type.
Variable eqb : A -> A -> bool.

(** [l.startswith(p)] *)
Fixpoint startswith (p l : list A) : bool :=
  match p, l with
  | [], _ => true
  | _ :: _, [] => false
  | a :: p', c :: l' => eqb a c && startswith p' l'
  end.

(** [c in l] *)
Definition contains (c : A) (l : list A) : bool := existsb (eqb c) l.

Definition cons_head (c : A) (parts : list (list A)) : list (list A) :=
  match parts with
  | [] => [[c]]
  | h :: r => (c :: h) :: r
  end.

(** [l.split(sep)] for a separator of length one: every occurrence cuts,
    and the result is never empty. *)
Fixpoint split (sep : A) (l : list A) : list (list A) :=
  match l with
  | [] => [[]]
  | c :: t => if eqb c sep then [] :: split sep t else cons_head c (split sep t)
  end.

(** [l.split(sep)] for a longer separator: occurrences are taken leftmost
    first and do not overlap.  [skip] counts the elements of a separator
    already matched that are still to be passed over. *)
Fixpoint split_seq (sep : list A) (skip : nat) (l : list A) : list (list A) :=
  match l with
  | [] => [[]]
  | c :: t =>
      match skip with
      | S k => split_seq sep k t
      | O =>
          if startswith sep l
          then [] :: split_seq sep (List.length sep - 1) t
          else cons_head c (split_seq sep 0 t)
      end
  end.

(** [l.split(sep, 1)] when [sep in l], and [None] otherwise: the text before
    the first occurrence and the text after it. *)
Fixpoint cut (sep : A) (l : list A) : option (list A * list A) :=
  match l with
  | [] => None
  | c :: t =>
      if eqb c sep then Some ([], t)
      else match cut sep t with
           | Some (before, after) => Some (c :: before, after)
           | None => None
           end
  end.

(** [l.lstrip(chars)], the set of characters given as a predicate. *)
Fixpoint lstrip (chars : A -> bool) (l : list A) : list A :=
  match l with
  | [] => []
  | c :: t => if chars c then lstrip chars t else l
  end.

(** The longest prefix of [l] free of [stop] characters, and the rest. *)
Fixpoint span_until (stop : A -> bool) (l : list A) : list A * list A :=
  match l with
  | [] => ([], [])
  | c :: t =>
      if stop c then ([], l)
      else let '(before, after) := span_until stop t in (c :: before, after)
  end.
End Sequences.

Definition str_eqb (s t : str) : bool :=
  if list_eq_dec N.eq_dec s t then true else false.

(** [parts[-1]] of a list known to be non-empty. *)
Definition last_item (A : Type) (parts : list (list A)) : list A := last parts [].

(** Character constants, as code points. *)
Definition c_percent : N := 37.   (* % *)
Definition c_amp : N := 38.       (* & *)
Definition c_eq : N := 61.        (* = *)
Definition c_hash : N := 35.      (* # *)
Definition c_colon : N := 58.     (* : *)
Definition c_slash : N := 47.     (* / *)
Definition c_question : N := 63.  (* ? *)
Definition c_lbracket : N := 91.  (* [ *)
Definition c_rbracket : N := 93.  (* ] *)

(** ** The codecs: ASCII and UTF-8 *)

(** [bytes.decode('ascii')], strict. *)
Fixpoint ascii_decode (bs : bytes) : result str :=
  match bs with
  | [] => Ok []
  | c :: t =>
      if (ord c <? 128)%N
      then (s <- ascii_decode t ;; Ok (ord c :: s))
      else Raise UnicodeDecodeError
  end.

(** [str.encode('ascii')], strict. *)
Fixpoint ascii_encode (s : str) : result bytes :=
  match s with
  | [] => Ok []
  | c :: t =>
      if (c <? 128)%N
      then (bs <- ascii_encode t ;; Ok (chr8 c :: bs))
      else Raise UnicodeEncodeError
  end.

(** What the UTF-8 decoder reads off the input: a scalar value, or one
    ill-formed stretch (a maximal subpart, which the [replace] handler turns
    into a single U+FFFD and the [strict] handler into an exception). *)
Inductive utf8_item :=
| Scalar (c : N)
| IllFormed.

Definition is_continuation (c : byte) : bool :=
  (128 <=? ord c)%N && (ord c <? 192)%N.

(** Second octet of a three-octet sequence: E0 excludes the overlong forms,
    ED excludes the surrogates. *)
Definition second_of_3_ok (c1 c2 : byte) : bool :=
  is_continuation c2
  && negb (if (ord c2 <? 160)%N then (ord c1 =? 224)%N else (ord c1 =? 237)%N).

(** Second octet of a four-octet sequence: F0 excludes the overlong forms,
    F4 excludes values above U+10FFFF. *)
Definition second_of_4_ok (c1 c2 : byte) : bool :=
  is_continuation c2
  && negb (if (ord c2 <? 144)%N then (ord c1 =? 240)%N else (ord c1 =? 244)%N).

Definition value2 (c1 c2 : byte) : N :=
  ((ord c1 mod 32) * 64 + ord c2 mod 64)%N.
Definition value3 (c1 c2 c3 : byte) : N :=
  ((ord c1 mod 16) * 4096 + (ord c2 mod 64) * 64 + ord c3 mod 64)%N.
Definition value4 (c1 c2 c3 c4 : byte) : N :=
  ((ord c1 mod 8) * 262144 + (ord c2 mod 64) * 4096
   + (ord c3 mod 64) * 64 + ord c4 mod 64)%N.

(** CPython's UTF-8 decoder.  After an ill-formed stretch decoding resumes at
    the first octet that was not part of it. *)
Fixpoint utf8_items (bs : bytes) : list utf8_item :=
  match bs with
  | [] => []
  | c1 :: t1 =>
      if (ord c1 <? 128)%N then Scalar (ord c1) :: utf8_items t1
      else if (ord c1 <? 194)%N then IllFormed :: utf8_items t1
      else if (ord c1 <? 224)%N then
        match t1 with
        | [] => [IllFormed]
        | c2 :: t2 =>
            if is_continuation c2
            then Scalar (value2 c1 c2) :: utf8_items t2
            else IllFormed :: utf8_items t1
        end
      else if (ord c1 <? 240)%N then
        match t1 with
        | [] => [IllFormed]
        | c2 :: t2 =>
            if second_of_3_ok c1 c2 then
              match t2 with
              | [] => [IllFormed]
              | c3 :: t3 =>
                  if is_continuation c3
                  then Scalar (value3 c1 c2 c3) :: utf8_items t3
                  else IllFormed :: utf8_items t2
              end
            else IllFormed :: utf8_items t1
        end
      else if (ord c1 <? 245)%N then
        match t1 with
        | [] => [IllFormed]
        | c2 :: t2 =>
            if second_of_4_ok c1 c2 then
              match t2 with
              | [] => [IllFormed]
              | c3 :: t3 =>
                  if is_continuation c3 then
                    match t3 with
                    | [] => [IllFormed]
                    | c4 :: t4 =>
                        if is_continuation c4
                        then Scalar (value4 c1 c2 c3 c4) :: utf8_items t4
                        else IllFormed :: utf8_items t3
                    end
                  else IllFormed :: utf8_items t2
              end
            else IllFormed :: utf8_items t1
        end
      else IllFormed :: utf8_items t1
  end.

Definition replacement_character : N := 65533.

(** [bs.decode('utf-8', 'replace')] *)
Definition utf8_decode_replace (bs : bytes) : str :=
  map (fun i => match i with Scalar c => c | IllFormed => replacement_character end)
      (utf8_items bs).

Fixpoint strict_items (items : list utf8_item) : result str :=
  match items with
  | [] => Ok []
  | Scalar c :: t => s <- strict_items t ;; Ok (c :: s)
  | IllFormed :: _ => Raise UnicodeDecodeError
  end.

(** [bs.decode()], that is UTF-8 and strict. *)
Definition utf8_decode (bs : bytes) : result str := strict_items (utf8_items bs).

(** A Unicode scalar value: a code point that is not a surrogate.  Every
    printable character is one (surrogates are of category Cs). *)
Definition is_scalar (c : N) : bool :=
  (c <? 1114112)%N && negb ((55296 <=? c)%N && (c <? 57344)%N).

(** The UTF-8 form of one code point; a surrogate or a value above U+10FFFF
    has none. *)
Definition utf8_encode_char (c : N) : result bytes :=
  if negb (is_scalar c) then Raise UnicodeEncodeError
  else if (c <? 128)%N then Ok [chr8 c]
  else if (c <? 2048)%N then
    Ok [chr8 (192 + c / 64)%N; chr8 (128 + c mod 64)%N]
  else if (c <? 65536)%N then
    Ok [chr8 (224 + c / 4096)%N; chr8 (128 + (c / 64) mod 64)%N;
        chr8 (128 + c mod 64)%N]
  else
    Ok [chr8 (240 + c / 262144)%N; chr8 (128 + (c / 4096) mod 64)%N;
        chr8 (128 + (c / 64) mod 64)%N; chr8 (128 + c mod 64)%N].

(** [s.encode('utf-8')], strict. *)
Fixpoint utf8_encode (s : str) : result bytes :=
  match s with
  | [] => Ok []
  | c :: t =>
      e <- utf8_encode_char c ;;
      bs <- utf8_encode t ;;
      Ok (e ++ bs)
  end.

(** ** [urllib.parse]: percent-decoding *)

Definition hex_value (c : byte) : option N :=
  let n := ord c in
  if (48 <=? n)%N && (n <? 58)%N then Some (n - 48)%N
  else if (65 <=? n)%N && (n <? 71)%N then Some (n - 55)%N
  else if (97 <=? n)%N && (n <? 103)%N then Some (n - 87)%N
  else None.

(** [unquote_to_bytes]: a [%] followed by two hexadecimal digits stands for
    the octet they spell; any other [%] stands for itself.  Nothing is ever
    rejected. *)
Fixpoint unquote_to_bytes (bs : bytes) : bytes :=
  match bs with
  | [] => []
  | c :: t =>
      if (ord c =? c_percent)%N then
        match t with
        | h1 :: h2 :: t' =>
            match hex_value h1, hex_value h2 with
            | Some hi, Some lo => chr8 (16 * hi + lo)%N :: unquote_to_bytes t'
            | _, _ => c :: unquote_to_bytes t
            end
        | _ => c :: unquote_to_bytes t
        end
      else c :: unquote_to_bytes t
  end.

(** One maximal run of ASCII characters of the argument of [unquote]: its
    escapes are resolved and the octets read as UTF-8, errors replaced. *)
Definition unquote_run (run : bytes) : str :=
  utf8_decode_replace (unquote_to_bytes run).

(** [unquote_parts s] is the leading ASCII run of [s], still to be resolved,
    and the unquoted form of what follows that run.  Characters outside
    ASCII pass through untouched and separate the runs. *)
Fixpoint unquote_parts (s : str) : bytes * str :=
  match s with
  | [] => ([], [])
  | c :: t =>
      let '(run, out) := unquote_parts t in
      if (c <? 128)%N then (chr8 c :: run, out)
      else ([], c :: unquote_run run ++ out)
  end.

(** [urllib.parse.unquote(s)] with its defaults, [encoding='utf-8'] and
    [errors='replace']. *)
Definition unquote (s : str) : str :=
  if contains N.eqb c_percent s
  then let '(run, out) := unquote_parts s in unquote_run run ++ out
  else s.

(** ** [urllib.parse]: splitting a URL *)

Record SplitResult := {
  scheme : str;
  netloc : str;
  path : str;
  query : str;
  fragment : str
}.

(** The same five components, as [bytes]. *)
Record SplitResultBytes := {
  scheme_b : bytes;
  netloc_b : bytes;
  path_b : bytes;
  query_b : bytes;
  fragment_b : bytes
}.

Definition is_c0_control_or_space (c : N) : bool := (c <=? 32)%N.

(** Tab, line feed and carriage return are removed wherever they stand. *)
Definition is_unsafe_url_char (c : N) : bool :=
  (c =? 9)%N || (c =? 10)%N || (c =? 13)%N.

Definition is_ascii_alpha (c : N) : bool :=
  ((65 <=? c)%N && (c <=? 90)%N) || ((97 <=? c)%N && (c <=? 122)%N).

Definition is_scheme_char (c : N) : bool :=
  is_ascii_alpha c || ((48 <=? c)%N && (c <=? 57)%N)
  || (c =? 43)%N || (c =? 45)%N || (c =? 46)%N.

Definition lower (c : N) : N :=
  if (65 <=? c)%N && (c <=? 90)%N then (c + 32)%N else c.

(** The scheme is what stands before the first colon, when that is a letter
    followed by scheme characters only. *)
Definition split_scheme (url : str) : str * str :=
  match cut N.eqb c_colon url with
  | Some (c :: before, rest) =>
      if is_ascii_alpha c && forallb is_scheme_char (c :: before)
      then (map lower (c :: before), rest)
      else ([], url)
  | _ => ([], url)
  end.

Definition is_netloc_delim (c : N) : bool :=
  (c =? c_slash)%N || (c =? c_question)%N || (c =? c_hash)%N.

Section Interpreter.

(** Whether a network location that holds both an opening and a closing
    bracket is accepted.  The interpreter decides this with its [ipaddress]
    module, by rules that changed from one release to the next (before
    3.11.4 every such location is accepted); the module under study never
    looks into it, so it stays a parameter. *)
Variable check_bracketed_netloc : str -> bool.

(** After a leading [//] the network location runs up to the first [/], [?]
    or [#].  Unbalanced brackets, or brackets the interpreter objects to,
    raise [ValueError]. *)
Definition split_netloc (url : str) : result (str * str) :=
  match url with
  | c1 :: c2 :: rest =>
      if (c1 =? c_slash)%N && (c2 =? c_slash)%N then
        let '(loc, url') := span_until is_netloc_delim rest in
        let has_l := contains N.eqb c_lbracket loc in
        let has_r := contains N.eqb c_rbracket loc in
        if xorb has_l has_r then Raise ValueError
        else if has_l && negb (check_bracketed_netloc loc) then Raise ValueError
        else Ok (loc, url')
      else Ok ([], url)
  | _ => Ok ([], url)
  end.

(** [urllib.parse.urlsplit] on a [str]. *)
Definition urlsplit (url : str) : result SplitResult :=
  let url := lstrip is_c0_control_or_space url in
  let url := filter (fun c => negb (is_unsafe_url_char c)) url in
  let '(sch, url) := split_scheme url in
  '(loc, url) <- split_netloc url ;;
  let '(url, frag) :=
    match cut N.eqb c_hash url with
    | Some p => p
    | None => (url, [])
    end in
  let '(url, qry) :=
    match cut N.eqb c_question url with
    | Some p => p
    | None => (url, [])
    end in
  Ok {| scheme := sch; netloc := loc; path := url; query := qry; fragment := frag |}.

(** [urllib.parse.urlparse] on [bytes]: the argument is decoded as ASCII,
    split, and the components encoded back.  [urlparse] further splits the
    parameters off the path; that step cannot raise, leaves the fragment
    alone and is left out. *)
Definition urlparse (url : bytes) : result SplitResultBytes :=
  url' <- ascii_decode url ;;
  r <- urlsplit url' ;;
  sch <- ascii_encode (scheme r) ;;
  loc <- ascii_encode (netloc r) ;;
  pth <- ascii_encode (path r) ;;
  qry <- ascii_encode (query r) ;;
  frag <- ascii_encode (fragment r) ;;
  Ok {| scheme_b := sch; netloc_b := loc; path_b := pth; query_b := qry;
        fragment_b := frag |}.

(** ** [dict] with [str] keys and values

    A dictionary keeps its items in insertion order; assigning to a key
    that is present replaces the value where the key stands. *)
Definition dict := list (str * str).

Fixpoint dict_set (k v : str) (d : dict) : dict :=
  match d with
  | [] => [(k, v)]
  | (k', v') :: r =>
      if str_eqb k k' then (k', v) :: r else (k', v') :: dict_set k v r
  end.

Fixpoint dict_get (k : str) (d : dict) : option str :=
  match d with
  | [] => None
  | (k', v') :: r => if str_eqb k k' then Some v' else dict_get k r
  end.

(** ** [asyncio] streams

    A reader holds the octets its peer sends before closing the connection
    that have not been consumed yet.  [chunk] is how many of them have
    arrived when a [read] is resumed: [read] does not wait for more. *)
Record StreamReader := {
  buffer : bytes;
  chunk : nat
}.

(** [_DEFAULT_LIMIT], 2 ** 16 *)
Definition limit : N := 65536.

(** The text before the first occurrence of [sep] and the text after it. *)
Fixpoint cut_seq (sep l : bytes) : option (bytes * bytes) :=
  match l with
  | [] => None
  | c :: t =>
      if startswith Byte.eqb sep l then Some ([], skipn (List.length sep) l)
      else match cut_seq sep t with
           | Some (before, after) => Some (c :: before, after)
           | None => None
           end
  end.

Inductive until_outcome :=
| Found (line : bytes)
| Incomplete (partial : bytes)
| Overrun.

(** The three ways [readuntil] can end: the separator is found within the
    limit; the stream ends first; the limit is exceeded. *)
Definition readuntil_outcome (sep : bytes) (r : StreamReader)
  : until_outcome * StreamReader :=
  match cut_seq sep (buffer r) with
  | Some (before, after) =>
      if (limit <? N.of_nat (List.length before))%N then (Overrun, r)
      else (Found (before ++ sep), {| buffer := after; chunk := chunk r |})
  | None =>
      if (limit + N.of_nat (List.length sep) <? N.of_nat (List.length (buffer r)) + 1)%N
      then (Overrun, r)
      else (Incomplete (buffer r), {| buffer := []; chunk := chunk r |})
  end.

(** [await reader.readuntil(sep)] *)
Definition readuntil (sep : bytes) (r : StreamReader) : result bytes * StreamReader :=
  match readuntil_outcome sep r with
  | (Found line, r') => (Ok line, r')
  | (Incomplete _, r') => (Raise IncompleteReadError, r')
  | (Overrun, r') => (Raise LimitOverrunError, r')
  end.

(** [await reader.readline()]: at the end of the stream the partial line
    is returned; an overlong line raises [ValueError]. *)
Definition readline (r : StreamReader) : result bytes * StreamReader :=
  match readuntil_outcome [LF] r with
  | (Found line, r') => (Ok line, r')
  | (Incomplete partial, r') => (Ok partial, r')
  | (Overrun, r') => (Raise ValueError, r')
  end.

(** [await reader.read(n)]: what has arrived, [n] octets at most; empty
    only at the end of the stream. *)
Definition read (n : nat) (r : StreamReader) : bytes * StreamReader :=
  let k := Nat.min n (Nat.max 1 (chunk r)) in
  (firstn k (buffer r), {| buffer := skipn k (buffer r); chunk := chunk r |}).

Record StreamWriter := {
  written : bytes;
  closed : bool
}.

Definition write (bs : bytes) (w : StreamWriter) : StreamWriter :=
  {| written := written w ++ bs; closed := closed w |}.

Definition close (w : StreamWriter) : StreamWriter :=
  {| written := written w; closed := true |}.

(** One accepted connection: the two streams the callback is given. *)
Record Connection := {
  reader : StreamReader;
  writer : StreamWriter
}.

(** [asyncio.Server]: whether it still listens, and how often [close()]
    was called on it. *)
Record Server := {
  is_serving : bool;
  close_calls : nat
}.

Definition server_close (srv : Server) : Server :=
  {| is_serving := false; close_calls := S (close_calls srv) |}.

(** ** The class [UrlFragmentFetchServer]

    The fields set by [__init__].  Clock readings and the timeout are
    integers in one common unit; only their order matters. *)
Record UrlFragmentFetchServer := {
  _keep_running : bool;
  _connected : bool;
  _timeout_time : Z;
  _port : N;
  _server : option Server;
  data : option dict;
  msg : option str
}.

(** [__init__(self, timeout=120, port=1000)], called when the clock reads
    [now]. *)
Definition __init__ (now timeout : Z) (port : N) : UrlFragmentFetchServer :=
  {| _keep_running := true;
     _connected := false;
     _timeout_time := now + timeout;
     _port := port;
     _server := None;
     data := None;
     msg := None |}.

Definition set_keep_running (v : bool) (self : UrlFragmentFetchServer) :=
  {| _keep_running := v; _connected := _connected self;
     _timeout_time := _timeout_time self; _port := _port self;
     _server := _server self; data := data self; msg := msg self |}.

Definition set_connected (v : bool) (self : UrlFragmentFetchServer) :=
  {| _keep_running := _keep_running self; _connected := v;
     _timeout_time := _timeout_time self; _port := _port self;
     _server := _server self; data := data self; msg := msg self |}.

Definition set_server (v : option Server) (self : UrlFragmentFetchServer) :=
  {| _keep_running := _keep_running self; _connected := _connected self;
     _timeout_time := _timeout_time self; _port := _port self;
     _server := v; data := data self; msg := msg self |}.

Definition set_data (v : option dict) (self : UrlFragmentFetchServer) :=
  {| _keep_running := _keep_running self; _connected := _connected self;
     _timeout_time := _timeout_time self; _port := _port self;
     _server := _server self; data := v; msg := msg self |}.

Definition set_msg (v : option str) (self : UrlFragmentFetchServer) :=
  {| _keep_running := _keep_running self; _connected := _connected self;
     _timeout_time := _timeout_time self; _port := _port self;
     _server := _server self; data := data self; msg := v |}.

(** The status messages and the response texts, as the module spells them. *)
Definition msg_timeout : str :=
  str_lit "Took too long to be redirected to the localhost page.".
Definition msg_success : str :=
  str_lit "Successfully obtained url fragments".
Definition msg_failure : str :=
  str_lit "Something went wrong when retrieving the url fragments".

Definition response_success : bytes :=
  bytes_lit "Information has been retrieved. You can now close this page.".
Definition response_failure : bytes :=
  bytes_lit "Something went wrong. See application for detail"
  ++ [LF] ++ bytes_lit "You can now close this page.".

Definition get_status_line : bytes := bytes_lit "HTTP/1.0 200 OK" ++ [LF].
Definition get_content_type : bytes := bytes_lit "Content-Type: text/html" ++ [LF].
Definition post_header : bytes :=
  bytes_lit "HTTP/1.1 200 OK" ++ [LF]
  ++ bytes_lit "Content-Type: text/html" ++ [LF] ++ [LF].

(** *** [__get_html_block] *)

Definition dq : string := String "034"%char EmptyString.

Fixpoint sp (n : nat) : string :=
  match n with
  | O => EmptyString
  | S k => String " "%char (sp k)
  end.

(** The lines of the f-string, the port already formatted. *)
Definition html_lines (port : string) : list string :=
  [ EmptyString;
    sp 32 ++ "<html>";
    sp 32 ++ "<head>";
    sp 36 ++ "<!-- import jquery to send info back to server -->";
    sp 36 ++ "<script";
    sp 40 ++ "src=" ++ dq ++ "https://code.jquery.com/jquery-3.6.0.min.js" ++ dq;
    sp 40 ++ "integrity=" ++ dq
          ++ "sha256-/xUj+3OJU5yExlq6GSYGSHk7tPXikynS7ogEvDej/m4=" ++ dq;
    sp 40 ++ "crossorigin=" ++ dq ++ "anonymous" ++ dq ++ ">";
    sp 36 ++ "</script>";
    sp 36 ++ "<script type=" ++ dq ++ "text/javascript" ++ dq ++ ">";
    sp 40 ++ "$(document).ready(function(){";
    sp 44 ++ "// Incredibly simple, simply grabs the whole url, posts it and replace the";
    sp 44 ++ "// test in the p tag with the response from the server.";
    sp 44 ++ "params = window.location.href;";
    sp 44 ++ "$.post(" ++ dq ++ "http://localhost:" ++ port ++ dq
          ++ ", params,function(status){";
    sp 48 ++ "$(" ++ dq ++ "#msg" ++ dq ++ ").text(status);";
    sp 44 ++ "});";
    sp 44;
    sp 40 ++ "});";
    sp 44;
    sp 36 ++ "</script>";
    sp 32 ++ "</head>";
    sp 32 ++ "<body>";
    sp 32 ++ "<p id=" ++ dq ++ "msg" ++ dq ++ ">Retrieving token.</p>";
    sp 32 ++ "</body>";
    sp 32 ++ "</html>";
    sp 28 ]%string.

Fixpoint join_lines (lines : list string) : bytes :=
  match lines with
  | [] => []
  | [l] => bytes_lit l
  | l :: rest => bytes_lit l ++ [LF] ++ join_lines rest
  end.

Definition __get_html_block (self : UrlFragmentFetchServer) : bytes :=
  join_lines (html_lines (NilEmpty.string_of_uint (N.to_uint (_port self)))).

Arguments __get_html_block : simpl never.

(** *** [__handle_connection]: the body of the [try] statement *)

(** Line 137: the URL is what follows the last blank line. *)
Definition returned_url (received : bytes) : result SplitResultBytes :=
  urlparse (last_item (split_seq Byte.eqb CRLFCRLF 0 received)).

(** Line 139 *)
Definition returned_fragments (received : bytes) : result (list str) :=
  url <- returned_url received ;;
  text <- utf8_decode (fragment_b url) ;;
  Ok (split N.eqb c_amp text).

(** Line 145 *)
Definition decoded_fragment (frag : str) : str := unquote frag.

(** Line 146 *)
Definition fragment_pair (frag : str) : list str :=
  split N.eqb c_eq (decoded_fragment frag).

(** Lines 144 to 147.  The right-hand side of the assignment is evaluated
    first, so a pair with a single piece raises [IndexError]. *)
Fixpoint for_fragment (fragments : list str) (final : dict) : result dict :=
  match fragments with
  | [] => Ok final
  | frag :: rest =>
      match nth_error (fragment_pair frag) 1, nth_error (fragment_pair frag) 0 with
      | Some v, Some k => for_fragment rest (dict_set k v final)
      | _, _ => Raise IndexError
      end
  end.

(** Lines 137 to 147: the value [final_data] has when the loop is over. *)
Definition final_data (received : bytes) : result dict :=
  fragments <- returned_fragments received ;;
  for_fragment fragments [].

(** *** [__handle_connection]

    The coroutine gives control back at each [await]; [handler_pc] says
    where it stands. *)
Inductive handler_pc :=
| Entry          (* created, not yet run *)
| AtReadline     (* line 104, in [reader.readline()] *)
| AtReaduntil    (* line 109, in [reader.readuntil(b'\r\n')] *)
| AtGetDrain     (* line 122, in [writer.drain()] *)
| AtRead         (* line 130, in [reader.read(4096)] *)
| AtPostDrain    (* line 165, in [writer.drain()] *)
| Returned
| Raised (e : exn).

(** From one suspension point to the next.  The peer is taken to send what
    it sends and close, and to stay for the answer: a pending read is always
    resumed, and [drain] does not raise. *)
Definition handler_step (self : UrlFragmentFetchServer) (c : Connection)
    (pc : handler_pc) : UrlFragmentFetchServer * Connection * handler_pc :=
  match pc with
  | Entry =>
      (* line 101 *)
      (set_connected true self, c, AtReadline)
  | AtReadline =>
      (* lines 104 to 107 and 127 *)
      let '(line, rd) := readline (reader c) in
      let c' := {| reader := rd; writer := writer c |} in
      match line with
      | Raise e => (self, c', Raised e)
      | Ok first =>
          match utf8_decode first with
          | Raise e => (self, c', Raised e)
          | Ok text =>
              if startswith N.eqb (str_lit "GET") text then (self, c', AtReaduntil)
              else if startswith N.eqb (str_lit "POST") text then (self, c', AtRead)
              else (self, c', Returned)
          end
      end
  | AtReaduntil =>
      (* lines 109 to 118 *)
      let '(line, rd) := readuntil CRLF (reader c) in
      match line with
      | Raise e => (self, {| reader := rd; writer := writer c |}, Raised e)
      | Ok _ =>
          let wr := write get_status_line (writer c) in
          let wr := write get_content_type wr in
          let wr := write [LF] wr in
          let wr := write (__get_html_block self) wr in
          (self, {| reader := rd; writer := wr |}, AtGetDrain)
      end
  | AtGetDrain =>
      (* lines 123 to 125 *)
      (set_connected false self,
       {| reader := reader c; writer := close (writer c) |}, Returned)
  | AtRead =>
      (* lines 130 to 162 *)
      let '(received, rd) := read 4096 (reader c) in
      let '(self', response_msg) :=
        match final_data received with
        | Ok final =>
            (set_msg (Some msg_success) (set_data (Some final) self),
             response_success)
        | Raise _ =>
            (set_msg (Some msg_failure) self, response_failure)
        end in
      (self',
       {| reader := rd; writer := write (post_header ++ response_msg) (writer c) |},
       AtPostDrain)
  | AtPostDrain =>
      (* lines 166 to 168 *)
      (set_connected false (set_keep_running false self),
       {| reader := reader c; writer := close (writer c) |}, Returned)
  | Returned => (self, c, Returned)
  | Raised e => (self, c, Raised e)
  end.

Fixpoint run_handler (fuel : nat) (self : UrlFragmentFetchServer)
    (c : Connection) (pc : handler_pc)
    : UrlFragmentFetchServer * Connection * handler_pc :=
  match fuel with
  | O => (self, c, pc)
  | S fuel' =>
      let '(self', c', pc') := handler_step self c pc in
      run_handler fuel' self' c' pc'
  end.

(** The handler run from its first line to its end with nothing else
    scheduled in between: no path has more than three [await]s. *)
Definition __handle_connection (self : UrlFragmentFetchServer) (c : Connection)
    : UrlFragmentFetchServer * Connection * handler_pc :=
  run_handler 4 self c Entry.

(** *** [__time_out_shutdown] *)

Inductive guard_pc :=
| GuardCreated       (* scheduled by [ensure_future], not yet run *)
| GuardSleeping      (* line 49, in [asyncio.sleep(1)] *)
| GuardClosed        (* past line 54 *)
| GuardRaised (e : exn).

(** The loop test of line 48 and, when it fails, line 54. *)
Definition guard_test (self : UrlFragmentFetchServer)
    : UrlFragmentFetchServer * guard_pc :=
  if _keep_running self || _connected self then (self, GuardSleeping)
  else match _server self with
       | Some srv => (set_server (Some (server_close srv)) self, GuardClosed)
       | None => (self, GuardRaised AttributeError)
       end.

(** From one suspension point to the next; [now] is what [time.time()]
    returns on line 50. *)
Definition __time_out_shutdown (now : Z) (self : UrlFragmentFetchServer)
    (pc : guard_pc) : UrlFragmentFetchServer * guard_pc :=
  match pc with
  | GuardCreated => guard_test self
  | GuardSleeping =>
      if (_timeout_time self <=? now)%Z
      then guard_test (set_keep_running false (set_msg (Some msg_timeout) self))
      else guard_test self
  | GuardClosed => (self, GuardClosed)
  | GuardRaised e => (self, GuardRaised e)
  end.

(** *** [__start_server] and [start]: the event loop *)

Record Loop := {
  server_self : UrlFragmentFetchServer;
  guard : guard_pc;
  handlers : list (Connection * handler_pc)
}.

(** What the event loop does next: resume the timeout coroutine (the clock
    reading [now]), accept a connection, or resume the handler of the
    [i]-th connection accepted. *)
Inductive event :=
| Wake (now : Z)
| Accept (c : Connection)
| Resume (i : nat).

(** Lines 174 to 184: the server listens and the timeout coroutine is
    scheduled. *)
Definition __start_server (self : UrlFragmentFetchServer) : Loop :=
  {| server_self := set_server (Some {| is_serving := true; close_calls := 0 |}) self;
     guard := GuardCreated;
     handlers := [] |}.

(** [serve_forever()] is over once the server is closed; [asyncio.run] then
    cancels what is still pending and returns. *)
Definition serving (l : Loop) : bool :=
  match _server (server_self l) with
  | Some srv => is_serving srv
  | None => false
  end.

Fixpoint set_nth (A : Type) (i : nat) (x : A) (l : list A) : list A :=
  match l, i with
  | [], _ => []
  | _ :: t, O => x :: t
  | h :: t, S j => h :: set_nth j x t
  end.

Definition loop_step (l : Loop) (ev : event) : Loop :=
  if negb (serving l) then l
  else
    match ev with
    | Wake now =>
        let '(self', pc') := __time_out_shutdown now (server_self l) (guard l) in
        {| server_self := self'; guard := pc'; handlers := handlers l |}
    | Accept c =>
        {| server_self := server_self l; guard := guard l;
           handlers := handlers l ++ [(c, Entry)] |}
    | Resume i =>
        match nth_error (handlers l) i with
        | Some (c, pc) =>
            let '(self', c', pc') := handler_step (server_self l) c pc in
            {| server_self := self'; guard := guard l;
               handlers := set_nth i (c', pc') (handlers l) |}
        | None => l
        end
    end.

Definition run_loop (evs : list event) (l : Loop) : Loop :=
  fold_left loop_step evs l.

(** [start()] under the schedule [evs]: the value returned, or [None] when
    the schedule ends with the server still listening. *)
Definition start (self : UrlFragmentFetchServer) (evs : list event)
    : option (option dict) :=
  let l := run_loop evs (__start_server self) in
  if serving l then None else Some (data (server_self l)).

End Interpreter.

(** ** The fragment of a URL

    What [urlsplit] makes of a URL it accepts: leading blanks and control
    characters stripped, tabs and line breaks removed, the fragment is what
    follows the first [#]. *)
Definition url_cleaned (url : str) : str :=
  filter (fun c => negb (is_unsafe_url_char c)) (lstrip is_c0_control_or_space url).

Definition after_hash (url : str) : str :=
  match cut N.eqb c_hash url with
  | Some (_, frag) => frag
  | None => []
  end.

Definition fragment_of (url : bytes) : str := after_hash (url_cleaned (map ord url)).

(** ** Percent-encoding

    The module only decodes.  The encoder the round-trip property speaks of
    is [urllib.parse.quote(s, safe='')], the inverse of [unquote]: the
    UTF-8 octets of [s], each written as itself when it is a letter, a digit
    or one of [_.-~], and as [%XX] otherwise. *)
Definition is_unreserved (c : byte) : bool :=
  let n := ord c in
  ((48 <=? n)%N && (n <=? 57)%N) || ((65 <=? n)%N && (n <=? 90)%N)
  || ((97 <=? n)%N && (n <=? 122)%N)
  || (n =? 95)%N || (n =? 46)%N || (n =? 45)%N || (n =? 126)%N.

Definition hex_digit (n : N) : byte :=
  if (n <? 10)%N then chr8 (48 + n)%N else chr8 (55 + n)%N.

Definition quote_octet (c : byte) : bytes :=
  if is_unreserved c then [c]
  else [x25; hex_digit (ord c / 16)%N; hex_digit (ord c mod 16)%N].

Definition quote (s : str) : result bytes :=
  bs <- utf8_encode s ;;
  Ok (flat_map quote_octet bs).

Definition is_ascii (c : N) : Prop := (c < 128)%N.

(** The characters percent-encoded text is made of, with the two
    delimiters of a fragment. *)
Definition is_quoted_char (c : byte) : bool :=
  is_unreserved c || (ord c =? c_percent)%N || (ord c =? c_eq)%N || (ord c =? c_amp)%N.

(** A key or a value with no raw [=] and no raw [&]. *)
Definition plain (s : str) : Prop := ~ In c_eq s /\ ~ In c_amp s.

Definition plain_item (kv : str * str) : Prop := plain (fst kv) /\ plain (snd kv).

(** A URL the interpreter's [urlparse] accepts: ASCII text whose network
    location, when it is written with brackets, passes the interpreter's
    check. *)
Definition accepted_url (check : str -> bool) (url : bytes) : Prop :=
  exists r, urlparse check url = Ok r.

(** What stands before the [#] of the URL that is posted, such as
    [http://localhost:1000/]: it holds no [#] of its own. *)
Definition url_before_fragment (prefix : bytes) : Prop :=
  ~ In c_hash (map ord prefix).

(** An interpreter that accepts every bracketed network location. *)
Definition any_netloc : str -> bool := fun _ => true.

(** [k1=v1&k2=v2...], keys and values percent-encoded: the fragment a
    provider builds from the items of a mapping. *)
Definition quote_item (kv : str * str) : result bytes :=
  k <- quote (fst kv) ;;
  v <- quote (snd kv) ;;
  Ok (k ++ x3d :: v).

Fixpoint encode_fragment (items : list (str * str)) : result bytes :=
  match items with
  | [] => Ok []
  | kv :: rest =>
      p <- quote_item kv ;;
      match rest with
      | [] => Ok p
      | _ :: _ => r <- encode_fragment rest ;; Ok (p ++ x26 :: r)
      end
  end.

(** The dictionary that assigning the items one after the other builds: a
    later item overwrites an earlier one with the same key. *)
Definition dict_of_items (items : list (str * str)) : dict :=
  fold_left (fun d kv => dict_set (fst kv) (snd kv) d) items [].

(** The value the last item with key [k] carries. *)
Fixpoint last_value (k : str) (items : list (str * str)) : option str :=
  match items with
  | [] => None
  | (k', v) :: rest =>
      match last_value k rest with
      | Some v' => Some v'
      | None => if str_eqb k k' then Some v else None
      end
  end.

(** ** Reading a connection as a request

    What the handler reads first, and what it goes on with. *)
Definition request_line (c : Connection) : result str :=
  line <- fst (readline (reader c)) ;;
  utf8_decode line.

Definition after_request_line (c : Connection) : Connection :=
  {| reader := snd (readline (reader c)); writer := writer c |}.

Definition is_get (c : Connection) : bool :=
  match request_line c with
  | Ok text => startswith N.eqb (str_lit "GET") text
  | Raise _ => false
  end.

Definition is_post (c : Connection) : bool :=
  match request_line c with
  | Ok text => startswith N.eqb (str_lit "POST") text
  | Raise _ => false
  end.

(** Line 130: the octets a POST handler goes on to parse, and the last
    piece of their split on the blank line (line 137). *)
Definition post_data (c : Connection) : bytes :=
  fst (read 4096 (reader (after_request_line c))).

Definition post_body (c : Connection) : bytes :=
  last_item (split_seq Byte.eqb CRLFCRLF 0 (post_data c)).

(** The outcome of a GET that was answered: the status line, the content
    type, a blank line and the page, the stream closed; the activity flag
    down and nothing else touched. *)
Definition page_served (self : UrlFragmentFetchServer) (c : Connection)
    (r : UrlFragmentFetchServer * Connection * handler_pc) : Prop :=
  let '(self', c', pc) := r in
  pc = Returned
  /\ _connected self' = false
  /\ _keep_running self' = _keep_running self
  /\ data self' = data self
  /\ msg self' = msg self
  /\ written (writer c')
     = written (writer c) ++ get_status_line ++ get_content_type ++ [LF]
       ++ __get_html_block self
  /\ closed (writer c') = true.

(** The outcome of a POST that could not be parsed: nothing captured, the
    failure message, a complete [200 OK] answer carrying the failure text,
    and both flags down. *)
Definition parse_failure (self : UrlFragmentFetchServer) (c : Connection)
    (r : UrlFragmentFetchServer * Connection * handler_pc) : Prop :=
  let '(self', c', pc) := r in
  pc = Returned
  /\ data self' = data self
  /\ msg self' = Some msg_failure
  /\ _keep_running self' = false
  /\ _connected self' = false
  /\ written (writer c') = written (writer c) ++ post_header ++ response_failure
  /\ closed (writer c') = true.

(** The outcome of a POST that was parsed into [final]. *)
Definition parse_success (final : dict) (self : UrlFragmentFetchServer)
    (c : Connection) (r : UrlFragmentFetchServer * Connection * handler_pc) : Prop :=
  let '(self', c', pc) := r in
  pc = Returned
  /\ data self' = Some final
  /\ msg self' = Some msg_success
  /\ _keep_running self' = false
  /\ _connected self' = false
  /\ written (writer c') = written (writer c) ++ post_header ++ response_success
  /\ closed (writer c') = true.

(** The key and the value the loop takes from one fragment, when it has
    both. *)
Definition fragment_item (frag : str) : option (str * str) :=
  match nth_error (fragment_pair frag) 1, nth_error (fragment_pair frag) 0 with
  | Some v, Some k => Some (k, v)
  | _, _ => None
  end.

Definition fragment_items (fragments : list str) : list (str * str) :=
  flat_map (fun frag => match fragment_item frag with
                        | Some kv => [kv]
                        | None => []
                        end) fragments.

(** ** The parser as the specification words it

    Split the fragment on [&], cut each pair at its first [=], then
    percent-decode the key and the value separately. *)
Fixpoint spec_pairs (pairs : list str) (final : dict) : result dict :=
  match pairs with
  | [] => Ok final
  | p :: rest =>
      match cut N.eqb c_eq p with
      | Some (k, v) => spec_pairs rest (dict_set (unquote k) (unquote v) final)
      | None => Raise ValueError
      end
  end.

Definition spec_final_data (check : str -> bool) (received : bytes) : result dict :=
  fragments <- returned_fragments check received ;;
  spec_pairs fragments [].

(** How often [close()] was called on the listening server. *)
Definition close_count (l : Loop) : nat :=
  match _server (server_self l) with
  | Some srv => close_calls srv
  | None => 0
  end.

(** What holds of the event loop at every moment: either the server
    listens and was never closed, or it was closed once, by the timeout
    coroutine, with both flags down. *)
Definition loop_invariant (l : Loop) : Prop :=
  exists srv,
    _server (server_self l) = Some srv
    /\ ((is_serving srv = true /\ close_calls srv = 0 /\ guard l <> GuardClosed)
        \/ (is_serving srv = false /\ close_calls srv = 1 /\ guard l = GuardClosed
            /\ _keep_running (server_self l) = false
            /\ _connected (server_self l) = false)).

(** A connection as it is accepted: [incoming] is what the peer sends, all
    of it within reach of the first [read]; nothing is written yet. *)
Definition connection (incoming : bytes) : Connection :=
  {| reader := {| buffer := incoming; chunk := 4096 |};
     writer := {| written := []; closed := false |} |}.

(** ** Sample requests

    A server as [UrlFragmentFetchServer()] makes it, and requests as a
    browser sends them. *)
Definition example_server : UrlFragmentFetchServer := __init__ 0 120 1000.

Definition post_request (body : bytes) : bytes :=
  bytes_lit "POST / HTTP/1.1" ++ CRLF
  ++ bytes_lit "Host: localhost:1000" ++ CRLF
  ++ bytes_lit "Content-Type: application/x-www-form-urlencoded" ++ CRLF
  ++ CRLF ++ body.

Definition get_request : bytes :=
  bytes_lit "GET / HTTP/1.1" ++ CRLF
  ++ bytes_lit "Host: localhost:1000" ++ CRLF
  ++ bytes_lit "Accept: text/html" ++ CRLF
  ++ CRLF.

Definition head_request : bytes :=
  bytes_lit "HEAD / HTTP/1.1" ++ CRLF
  ++ bytes_lit "Host: localhost:1000" ++ CRLF
  ++ CRLF.

Definition local_url : bytes := bytes_lit "http://localhost:1000/".

Definition example_items : list (str * str) :=
  [(str_lit "access_token", str_lit "abc"); (str_lit "scope", str_lit "chat:read")].

(** ** Tactics *)

(** [lia] with divisions and remainders by constants. *)
Ltac lia_div := zify; Z.to_euclidean_division_equations; lia.

(** Settles the comparisons of the goal that [lia] can settle. *)
Ltac decide_tests :=
  repeat match goal with
         | |- context [(?a <? ?b)%N] =>
             first [ replace (a <? b)%N with true by (symmetry; apply N.ltb_lt; lia)
                   | replace (a <? b)%N with false by (symmetry; apply N.ltb_ge; lia) ]
         | |- context [(?a <=? ?b)%N] =>
             first [ replace (a <=? b)%N with true by (symmetry; apply N.leb_le; lia)
                   | replace (a <=? b)%N with false by (symmetry; apply N.leb_gt; lia) ]
         | |- context [(?a =? ?b)%N] =>
             first [ replace (a =? b)%N with true by (symmetry; apply N.eqb_eq; lia)
                   | replace (a =? b)%N with false by (symmetry; apply N.eqb_neq; lia) ]
         end.


(** ** More of the handler's inputs

    What stands before the blank line of a request, the separator left out:
    header lines whose last one has given its CRLF to the blank line, so the
    block ends neither in CR nor in CR LF. *)
Definition header_block (h : bytes) : Prop :=
  forall p, h <> p ++ [CR] /\ h <> p ++ [CR; LF].

(** The same connection with more octets sent after those of [c]. *)
Definition followed_by (extra : bytes) (c : Connection) : Connection :=
  {| reader := {| buffer := buffer (reader c) ++ extra; chunk := chunk (reader c) |};
     writer := writer c |}.

(** A key and a value with no raw [=]; a raw [&] is allowed. *)
Definition no_equals_item (kv : str * str) : Prop :=
  ~ In c_eq (fst kv) /\ ~ In c_eq (snd kv).

(** ** More of the event loop *)

(** Lines 51 and 52: what the timeout coroutine does to the session when it
    finds the deadline passed. *)
Definition timed_out (self : UrlFragmentFetchServer) : UrlFragmentFetchServer :=
  set_keep_running false (set_msg (Some msg_timeout) self).

(** The clock reached the deadline at one of the wake-ups [nows]. *)
Definition deadline_seen (self : UrlFragmentFetchServer) (nows : list Z) : bool :=
  existsb (fun now => (_timeout_time self <=? now)%Z) nows.

(** The session after the timeout coroutine woke up at each of [nows] and
    went back to sleep. *)
Definition after_wakes (nows : list Z) (self : UrlFragmentFetchServer)
    : UrlFragmentFetchServer :=
  if deadline_seen self nows then timed_out self else self.

(** Lines 135 to 158: what the [try] statement of a POST does to the
    session. *)
Definition post_outcome (check : str -> bool) (c : Connection)
    (self : UrlFragmentFetchServer) : UrlFragmentFetchServer :=
  match final_data check (post_data c) with
  | Ok final => set_msg (Some msg_success) (set_data (Some final) self)
  | Raise _ => set_msg (Some msg_failure) self
  end.

(** What a POST on a fresh session leaves in [data]. *)
Definition captured (check : str -> bool) (c : Connection) : option dict :=
  match final_data check (post_data c) with
  | Ok final => Some final
  | Raise _ => None
  end.

(** The three texts [msg] can hold. *)
Definition status_messages : list str := [msg_timeout; msg_success; msg_failure].

(** A handler that will not take the POST branch: it is past the test of
    the request line on another branch, or its request line is not one of a
    POST. *)
Definition never_posts (h : Connection * handler_pc) : Prop :=
  match snd h with
  | Entry | AtReadline => is_post (fst h) = false
  | AtRead | AtPostDrain => False
  | _ => True
  end.

(** No POST has come in: nothing is captured, the only status there can be
    is that of the timeout, and no handler is on the POST branch. *)
Definition no_post_seen (l : Loop) : Prop :=
  data (server_self l) = None
  /\ (msg (server_self l) = None \/ msg (server_self l) = Some msg_timeout)
  /\ (_keep_running (server_self l) = false -> msg (server_self l) = Some msg_timeout)
  /\ Forall never_posts (handlers l).

(** The status is one of the three texts, and it is set as soon as a
    shutdown is asked for or about to be. *)
Definition status_known (l : Loop) : Prop :=
  (forall m, msg (server_self l) = Some m -> In m status_messages)
  /\ (_keep_running (server_self l) = false -> msg (server_self l) <> None)
  /\ Forall (fun h => snd h = AtPostDrain -> msg (server_self l) <> None)
            (handlers l).

(** The schedule of one POST exchange: the timeout coroutine starts, the
    connection is accepted and its handler runs to the end, the timeout
    coroutine waking up at [w0] before the exchange, at [w1], [w2] and [w3]
    between the steps of the handler, and at [late] after it. *)
Definition post_exchange (t0 : Z) (w0 : list Z) (c : Connection)
    (w1 w2 w3 : list Z) (late : Z) : list event :=
  Wake t0 :: map Wake w0 ++ [Accept c; Resume 0] ++ map Wake w1
  ++ Resume 0 :: map Wake w2 ++ Resume 0 :: map Wake w3 ++ [Resume 0; Wake late].

(** Two connections at once: [a] and [b] are accepted, the handler of [b]
    starts, then the handler of [a] runs to its end, and the timeout
    coroutine wakes up at [late]. *)
Definition overlapping_exchanges (t0 : Z) (a b : Connection) (late : Z)
    : list event :=
  [Wake t0; Accept a; Accept b; Resume 1; Resume 0; Resume 0; Resume 0; Resume 0;
   Wake late].

(** The exchange the module is made for: the browser is redirected to the
    page ([a], a GET served to the end), the page posts its URL back ([c],
    served to the end), and the timeout coroutine wakes up at [w] in
    between and at [late] after the POST. *)
Definition redirect_flow (t0 : Z) (a : Connection) (w : list Z) (c : Connection)
    (late : Z) : list event :=
  [Wake t0; Accept a; Resume 0; Resume 0; Resume 0; Resume 0] ++ map Wake w
  ++ [Accept c; Resume 1; Resume 1; Resume 1; Resume 1; Wake late].

(** A handler that returned with its stream closed. *)
Definition answered (h : Connection * handler_pc) : Prop :=
  snd h = Returned /\ closed (writer (fst h)) = true.

(** * Facts

    From here on every argument of a lemma is written out. *)
Unset Implicit Arguments.

Lemma ord_bound (c : byte) : (ord c < 256)%N.
Proof. unfold ord. pose proof (Byte.to_N_bounded c). lia. Qed.

Lemma ord_chr8 (n : N) : (n < 256)%N -> ord (chr8 n) = n.
Proof.
  intros Hn. unfold ord, chr8.
  destruct (Byte.of_N n) as [c|] eqn:E.
  - now apply Byte.to_of_N.
  - apply Byte.of_N_None_iff in E. lia.
Qed.

Lemma chr8_ord (c : byte) : chr8 (ord c) = c.
Proof. unfold chr8, ord. now rewrite Byte.of_to_N. Qed.

Lemma Ok_inj (A : Type) (a b : A) : Ok a = Ok b -> a = b.
Proof. congruence. Qed.

Lemma mod_cont (x : N) : (x < 64 -> (128 + x) mod 64 = x)%N.
Proof. intros. lia_div. Qed.
Lemma mod_lead2 (x : N) : (x < 32 -> (192 + x) mod 32 = x)%N.
Proof. intros. lia_div. Qed.
Lemma mod_lead3 (x : N) : (x < 16 -> (224 + x) mod 16 = x)%N.
Proof. intros. lia_div. Qed.
Lemma mod_lead4 (x : N) : (x < 8 -> (240 + x) mod 8 = x)%N.
Proof. intros. lia_div. Qed.

(** The base-64 digits of a code point. *)
Lemma digits64 (c : N) :
  exists a b d q : N,
    (a < 64 /\ b < 64 /\ d < 64
     /\ c = q * 262144 + d * 4096 + b * 64 + a
     /\ c mod 64 = a
     /\ (c / 64) mod 64 = b
     /\ c / 64 = (q * 64 + d) * 64 + b
     /\ (c / 4096) mod 64 = d
     /\ c / 4096 = q * 64 + d
     /\ c / 262144 = q)%N.
Proof.
  exists (c mod 64)%N, ((c / 64) mod 64)%N, ((c / 64 / 64) mod 64)%N, (c / 64 / 64 / 64)%N.
  replace (c / 4096)%N with (c / 64 / 64)%N by (now rewrite N.Div0.div_div).
  replace (c / 262144)%N with (c / 64 / 64 / 64)%N by (now rewrite !N.Div0.div_div).
  pose proof (N.div_mod c 64). pose proof (N.mod_lt c 64).
  pose proof (N.div_mod (c / 64) 64). pose proof (N.mod_lt (c / 64) 64).
  pose proof (N.div_mod (c / 64 / 64) 64). pose proof (N.mod_lt (c / 64 / 64) 64).
  generalize dependent (c mod 64)%N. generalize dependent ((c / 64) mod 64)%N.
  generalize dependent ((c / 64 / 64) mod 64)%N. generalize dependent (c / 64 / 64 / 64)%N.
  generalize dependent (c / 64 / 64)%N. generalize dependent (c / 64)%N.
  intros. repeat split; lia.
Qed.

Lemma utf8_items_encode_char (c : N) (e rest : bytes) :
  utf8_encode_char c = Ok e ->
  utf8_items (e ++ rest) = Scalar c :: utf8_items rest.
Proof.
  unfold utf8_encode_char, is_scalar.
  destruct (c <? 1114112)%N eqn:Hmax; [|discriminate].
  destruct ((55296 <=? c)%N && (c <? 57344)%N) eqn:Hsur; [discriminate|].
  apply N.ltb_lt in Hmax.
  assert (Hs : (c < 55296 \/ 57344 <= c)%N).
  { apply andb_false_iff in Hsur as [H|H]; [apply N.leb_gt in H | apply N.ltb_ge in H]; lia. }
  clear Hsur. cbn [negb andb].
  destruct (digits64 c) as (a & b & d & q & Ha & Hb & Hd & Hc & E0 & E1 & E1' & E2 & E2' & E3).
  rewrite E0, E1, E2, E3, E2'.
  replace (c / 64)%N with ((q * 64 + d) * 64 + b)%N.
  destruct (N.ltb_spec c 128).
  { intros E; apply Ok_inj in E; subst e. cbn [app utf8_items]. rewrite ord_chr8 by lia.
    decide_tests. reflexivity. }
  destruct (N.ltb_spec c 2048).
  { intros E; apply Ok_inj in E; subst e. cbn [app utf8_items].
    unfold is_continuation, value2. rewrite !ord_chr8 by lia.
    rewrite mod_cont, mod_lead2 by lia.
    decide_tests. cbn [andb]. f_equal. f_equal. lia. }
  destruct (N.ltb_spec c 65536).
  { intros E; apply Ok_inj in E; subst e. cbn [app utf8_items].
    unfold second_of_3_ok, is_continuation, value3. rewrite !ord_chr8 by lia.
    rewrite !mod_cont, mod_lead3 by lia.
    decide_tests. cbn [andb negb].
    match goal with |- context [if (?x <? ?y)%N then _ else _] => destruct (N.ltb_spec x y) end;
    decide_tests; cbn [andb negb]; f_equal; f_equal; lia. }
  intros E; apply Ok_inj in E; subst e. cbn [app utf8_items].
  unfold second_of_4_ok, is_continuation, value4. rewrite !ord_chr8 by lia.
  rewrite !mod_cont, mod_lead4 by lia.
  decide_tests. cbn [andb negb].
  match goal with |- context [if (?x <? ?y)%N then _ else _] => destruct (N.ltb_spec x y) end;
  decide_tests; cbn [andb negb]; f_equal; f_equal; lia.
Qed.

(** ** Splitting and cutting *)

Section SequenceFacts.
Variable A : Type.
Variable eqb : A -> A -> bool.
Hypothesis eqb_eq : forall a b, eqb a b = true <-> a = b.

Lemma eqb_refl_of (a : A) : eqb a a = true.
Proof. now apply eqb_eq. Qed.

Lemma eqb_neq_of (a b : A) : a <> b -> eqb a b = false.
Proof.
  intros H. destruct (eqb a b) eqn:E; [|reflexivity].
  apply eqb_eq in E. contradiction.
Qed.

Lemma contains_In (c : A) (l : list A) : contains eqb c l = true <-> In c l.
Proof.
  unfold contains. rewrite existsb_exists. split.
  - intros (x & Hx & E). apply eqb_eq in E. now subst.
  - intros H. exists c. split; [assumption | apply eqb_refl_of].
Qed.

Lemma contains_not_In (c : A) (l : list A) : contains eqb c l = false <-> ~ In c l.
Proof.
  rewrite <- contains_In. destruct (contains eqb c l); intuition congruence.
Qed.

Lemma split_not_nil (sep : A) (l : list A) : split eqb sep l <> [].
Proof.
  destruct l as [|c t]; cbn; [discriminate|].
  destruct (eqb c sep); [discriminate|].
  destruct (split eqb sep t); discriminate.
Qed.

Lemma split_without (sep : A) (l : list A) :
  ~ In sep l -> split eqb sep l = [l].
Proof.
  induction l as [|c t IH]; cbn; intros H; [reflexivity|].
  rewrite eqb_neq_of by (intros ->; apply H; now left).
  rewrite IH by (intros H'; apply H; now right). reflexivity.
Qed.

Lemma split_app (sep : A) (a b : list A) :
  ~ In sep a -> split eqb sep (a ++ sep :: b) = a :: split eqb sep b.
Proof.
  induction a as [|c t IH]; cbn; intros H.
  - now rewrite eqb_refl_of.
  - rewrite eqb_neq_of by (intros ->; apply H; now left).
    rewrite IH by (intros H'; apply H; now right). reflexivity.
Qed.

(** A text that holds the separator splits in at least two pieces, the
    first of which is free of it. *)
Lemma split_with (sep : A) (l : list A) :
  In sep l ->
  exists a b rest, split eqb sep l = a :: b :: rest /\ ~ In sep a /\ ~ In sep b.
Proof.
  induction l as [|c t IH]; cbn; intros H; [contradiction|].
  destruct (eqb c sep) eqn:E.
  - destruct (contains eqb sep t) eqn:Hc;
      [apply contains_In in Hc; rename Hc into Hin
      |apply contains_not_In in Hc; rename Hc into Hout].
    + destruct (IH Hin) as (a & b & rest & -> & Ha & Hb).
      exists [], a, (b :: rest). repeat split; auto.
    + rewrite split_without by assumption.
      exists [], t, []. repeat split; auto.
  - assert (Hin : In sep t).
    { destruct H as [->|H]; [|assumption]. rewrite eqb_refl_of in E. discriminate. }
    destruct (IH Hin) as (a & b & rest & -> & Ha & Hb).
    exists (c :: a), b, rest. cbn. repeat split; auto.
    intros [->|H']; [|contradiction]. rewrite eqb_refl_of in E. discriminate.
Qed.

Lemma cut_app (sep : A) (a b : list A) :
  ~ In sep a -> cut eqb sep (a ++ sep :: b) = Some (a, b).
Proof.
  induction a as [|c t IH]; cbn; intros H.
  - now rewrite eqb_refl_of.
  - rewrite eqb_neq_of by (intros ->; apply H; now left).
    rewrite IH by (intros H'; apply H; now right). reflexivity.
Qed.

Lemma cut_without (sep : A) (l : list A) : ~ In sep l -> cut eqb sep l = None.
Proof.
  induction l as [|c t IH]; cbn; intros H; [reflexivity|].
  rewrite eqb_neq_of by (intros ->; apply H; now left).
  rewrite IH by (intros H'; apply H; now right). reflexivity.
Qed.

Lemma cut_Some (sep : A) (l a b : list A) :
  cut eqb sep l = Some (a, b) -> l = a ++ sep :: b /\ ~ In sep a.
Proof.
  revert a. induction l as [|c t IH]; cbn; intros a; [discriminate|].
  destruct (eqb c sep) eqn:E.
  - intros [= <- <-]. apply eqb_eq in E. subst. split; auto.
  - destruct (cut eqb sep t) as [[a' b']|]; [|discriminate].
    intros [= <- <-]. destruct (IH a' eq_refl) as [-> Ha]. split; [reflexivity|].
    intros [->|H]; [|contradiction]. rewrite eqb_refl_of in E. discriminate.
Qed.

Lemma cut_None (sep : A) (l : list A) : cut eqb sep l = None -> ~ In sep l.
Proof.
  induction l as [|c t IH]; cbn; [auto|].
  destruct (eqb c sep) eqn:E; [discriminate|].
  destruct (cut eqb sep t) as [[a' b']|]; [discriminate|].
  intros _ [->|H]; [|now apply IH]. rewrite eqb_refl_of in E. discriminate.
Qed.

End SequenceFacts.

(** ** The codecs on ASCII text *)



Lemma map_chr8_ord (bs : bytes) : map chr8 (map ord bs) = bs.
Proof.
  induction bs as [|c t IH]; cbn; [reflexivity|]. now rewrite chr8_ord, IH.
Qed.

Lemma map_ord_chr8 (s : str) : Forall is_ascii s -> map ord (map chr8 s) = s.
Proof.
  induction 1 as [|c t Hc _ IH]; cbn; [reflexivity|].
  unfold is_ascii in Hc. rewrite ord_chr8 by lia. now rewrite IH.
Qed.

Lemma ascii_decode_Ok (bs : bytes) (s : str) :
  ascii_decode bs = Ok s -> s = map ord bs /\ Forall is_ascii s.
Proof.
  revert s. induction bs as [|c t IH]; cbn; intros s.
  - intros [= <-]. split; [reflexivity | constructor].
  - destruct (N.ltb_spec (ord c) 128); [|discriminate].
    destruct (ascii_decode t) as [s'|]; cbn; [|discriminate].
    intros [= <-]. destruct (IH s' eq_refl) as [-> Hs].
    split; [reflexivity | now constructor].
Qed.

Lemma ascii_decode_ascii (bs : bytes) :
  Forall (fun c => is_ascii (ord c)) bs -> ascii_decode bs = Ok (map ord bs).
Proof.
  induction 1 as [|c t Hc _ IH]; cbn; [reflexivity|].
  unfold is_ascii in Hc. apply N.ltb_lt in Hc. now rewrite Hc, IH.
Qed.

Lemma ascii_encode_Ok (s : str) (bs : bytes) :
  ascii_encode s = Ok bs -> bs = map chr8 s /\ Forall is_ascii s.
Proof.
  revert bs. induction s as [|c t IH]; cbn; intros bs.
  - intros [= <-]. split; [reflexivity | constructor].
  - destruct (N.ltb_spec c 128); [|discriminate].
    destruct (ascii_encode t) as [bs'|]; cbn; [|discriminate].
    intros [= <-]. destruct (IH bs' eq_refl) as [-> Hs].
    split; [reflexivity | now constructor].
Qed.

Lemma ascii_encode_ascii (s : str) :
  Forall is_ascii s -> ascii_encode s = Ok (map chr8 s).
Proof.
  induction 1 as [|c t Hc _ IH]; cbn; [reflexivity|].
  unfold is_ascii in Hc. apply N.ltb_lt in Hc. now rewrite Hc, IH.
Qed.

Lemma utf8_items_ascii (bs : bytes) :
  Forall (fun c => is_ascii (ord c)) bs ->
  utf8_items bs = map (fun c => Scalar (ord c)) bs.
Proof.
  induction 1 as [|c t Hc _ IH]; [reflexivity|].
  unfold is_ascii in Hc. apply N.ltb_lt in Hc.
  cbn [utf8_items map]. now rewrite Hc, IH.
Qed.

Lemma Forall_ascii_chr8 (s : str) :
  Forall is_ascii s -> Forall (fun c => is_ascii (ord c)) (map chr8 s).
Proof.
  induction 1 as [|c t Hc _ IH]; cbn; constructor; [|assumption].
  unfold is_ascii in *. rewrite ord_chr8; lia.
Qed.

Lemma utf8_decode_replace_ascii (bs : bytes) :
  Forall (fun c => is_ascii (ord c)) bs -> utf8_decode_replace bs = map ord bs.
Proof.
  intros H. unfold utf8_decode_replace. rewrite utf8_items_ascii by assumption.
  now rewrite map_map.
Qed.

Lemma utf8_decode_ascii (s : str) :
  Forall is_ascii s -> utf8_decode (map chr8 s) = Ok s.
Proof.
  intros H. unfold utf8_decode.
  rewrite utf8_items_ascii by now apply Forall_ascii_chr8.
  induction H as [|c t Hc _ IH]; cbn; [reflexivity|].
  rewrite IH. cbn. unfold is_ascii in Hc. now rewrite ord_chr8 by lia.
Qed.

(** ** UTF-8: decoding what was encoded *)

Lemma utf8_items_encode (s : str) (e rest : bytes) :
  utf8_encode s = Ok e ->
  utf8_items (e ++ rest) = map Scalar s ++ utf8_items rest.
Proof.
  revert e. induction s as [|c t IH]; cbn; intros e.
  - now intros [= <-].
  - destruct (utf8_encode_char c) as [ec|] eqn:Ec; cbn; [|discriminate].
    destruct (utf8_encode t) as [et|]; cbn; [|discriminate].
    intros [= <-]. rewrite <- app_assoc.
    rewrite (utf8_items_encode_char _ _ _ Ec). now rewrite (IH et eq_refl).
Qed.

Lemma utf8_decode_replace_encode (s : str) (e rest : bytes) :
  utf8_encode s = Ok e ->
  utf8_decode_replace (e ++ rest) = s ++ utf8_decode_replace rest.
Proof.
  intros H. unfold utf8_decode_replace.
  rewrite (utf8_items_encode _ _ _ H), map_app, map_map.
  f_equal. now rewrite map_id.
Qed.

(** ** Percent-decoding what was percent-encoded *)

Lemma unquote_to_bytes_quote_octet (c : byte) (rest : bytes) :
  unquote_to_bytes (quote_octet c ++ rest) = c :: unquote_to_bytes rest.
Proof. destruct c; reflexivity. Qed.

Lemma unquote_to_bytes_quoted (bs rest : bytes) :
  unquote_to_bytes (flat_map quote_octet bs ++ rest) = bs ++ unquote_to_bytes rest.
Proof.
  induction bs as [|c t IH]; cbn [flat_map app]; [reflexivity|].
  now rewrite <- app_assoc, unquote_to_bytes_quote_octet, IH.
Qed.

Lemma unquote_to_bytes_plain (c : byte) (rest : bytes) :
  ord c <> c_percent ->
  unquote_to_bytes (c :: rest) = c :: unquote_to_bytes rest.
Proof.
  intros H. cbn [unquote_to_bytes].
  now replace (ord c =? c_percent)%N with false by (symmetry; now apply N.eqb_neq).
Qed.

Lemma unquote_to_bytes_without (bs : bytes) :
  ~ In c_percent (map ord bs) -> unquote_to_bytes bs = bs.
Proof.
  induction bs as [|c t IH]; cbn [map]; intros H; [reflexivity|].
  rewrite unquote_to_bytes_plain by (intros E; apply H; left; exact E).
  rewrite IH; [reflexivity|]. intros H'. apply H. now right.
Qed.

(** On ASCII text [unquote] resolves the escapes of the whole text as one
    run, whether or not it takes the shortcut. *)
Lemma unquote_parts_ascii (s : str) :
  Forall is_ascii s -> unquote_parts s = (map chr8 s, []).
Proof.
  induction 1 as [|c t Hc _ IH]; cbn; [reflexivity|].
  rewrite IH. unfold is_ascii in Hc. apply N.ltb_lt in Hc. now rewrite Hc.
Qed.

Lemma unquote_ascii (s : str) :
  Forall is_ascii s -> unquote s = unquote_run (map chr8 s).
Proof.
  intros H. unfold unquote.
  destruct (contains N.eqb c_percent s) eqn:E.
  - rewrite unquote_parts_ascii by assumption. now rewrite app_nil_r.
  - apply (contains_not_In _ N.eqb N.eqb_eq) in E.
    unfold unquote_run. rewrite unquote_to_bytes_without.
    + rewrite utf8_decode_replace_ascii by now apply Forall_ascii_chr8.
      symmetry. now apply map_ord_chr8.
    + now rewrite map_ord_chr8.
Qed.

(** ** [urlsplit]: where the fragment comes from *)

Lemma after_hash_skip (before l : str) :
  ~ In c_hash before -> after_hash (before ++ l) = after_hash l.
Proof.
  unfold after_hash. induction before as [|c t IH]; cbn; intros H; [reflexivity|].
  rewrite (eqb_neq_of _ N.eqb N.eqb_eq) by (intros ->; apply H; now left).
  assert (Ht : ~ In c_hash t) by (intros H'; apply H; now right).
  specialize (IH Ht).
  destruct (cut N.eqb c_hash (t ++ l)) as [[a b]|], (cut N.eqb c_hash l) as [[a' b']|];
    cbn in *; congruence.
Qed.

Lemma after_hash_app (before frag : str) :
  ~ In c_hash before -> after_hash (before ++ c_hash :: frag) = frag.
Proof.
  intros H. unfold after_hash. now rewrite (cut_app _ N.eqb N.eqb_eq).
Qed.

Lemma after_hash_without (url : str) : ~ In c_hash url -> after_hash url = [].
Proof.
  intros H. unfold after_hash. now rewrite (cut_without _ N.eqb N.eqb_eq).
Qed.

Lemma span_until_spec (A : Type) (stop : A -> bool) (l a b : list A) :
  span_until stop l = (a, b) -> l = a ++ b /\ Forall (fun c => stop c = false) a.
Proof.
  revert a b. induction l as [|c t IH]; cbn; intros a b.
  - intros [= <- <-]. split; [reflexivity | constructor].
  - destruct (stop c) eqn:E.
    + intros [= <- <-]. split; [reflexivity | constructor].
    + destruct (span_until stop t) as [a' b']. intros [= <- <-].
      destruct (IH a' b' eq_refl) as [-> Ha]. split; [reflexivity | now constructor].
Qed.

Lemma scheme_char_not_hash (l : str) :
  forallb is_scheme_char l = true -> ~ In c_hash l.
Proof.
  rewrite forallb_forall. intros H Hin. specialize (H _ Hin). discriminate.
Qed.

(** Taking the scheme off leaves the fragment where it is. *)
Lemma split_scheme_after_hash (url sch rest : str) :
  split_scheme url = (sch, rest) -> after_hash rest = after_hash url.
Proof.
  unfold split_scheme.
  destruct (cut N.eqb c_colon url) as [[[|c before] r]|] eqn:E;
    try (intros [= <- <-]; reflexivity).
  destruct (is_ascii_alpha c && forallb is_scheme_char (c :: before)) eqn:Hs;
    [|intros [= <- <-]; reflexivity].
  intros [= <- <-]. apply andb_prop in Hs as [_ Hs].
  apply (cut_Some _ N.eqb N.eqb_eq) in E as [-> _].
  apply scheme_char_not_hash in Hs.
  change ((c :: before) ++ c_colon :: r) with ((c :: before) ++ [c_colon] ++ r).
  rewrite app_assoc. symmetry. apply after_hash_skip.
  intros H. apply in_app_or in H as [H|[H|[]]]; [contradiction | discriminate].
Qed.

Lemma split_scheme_In (url sch rest : str) (x : N) :
  split_scheme url = (sch, rest) -> In x rest -> In x url.
Proof.
  unfold split_scheme.
  destruct (cut N.eqb c_colon url) as [[[|c before] r]|] eqn:E;
    try (intros [= <- <-]; auto).
  destruct (is_ascii_alpha c && forallb is_scheme_char (c :: before));
    intros [= <- <-]; auto.
  apply (cut_Some _ N.eqb N.eqb_eq) in E as [-> _].
  intros H. apply in_or_app. right. now right.
Qed.

Section UrlFacts.
Variable check : str -> bool.

(** Taking the network location off leaves the fragment where it is. *)
Lemma split_netloc_after_hash (url loc rest : str) :
  split_netloc check url = Ok (loc, rest) -> after_hash rest = after_hash url.
Proof.
  unfold split_netloc.
  destruct url as [|c1 [|c2 t]]; try (intros [= <- <-]; reflexivity).
  destruct ((c1 =? c_slash)%N && (c2 =? c_slash)%N) eqn:Hs;
    [|intros [= <- <-]; reflexivity].
  destruct (span_until is_netloc_delim t) as [a b] eqn:Hsp.
  apply span_until_spec in Hsp as [-> Ha].
  apply andb_prop in Hs as [H1 H2]. apply N.eqb_eq in H1, H2. subst c1 c2.
  destruct (xorb _ _); [discriminate|].
  destruct (_ && _); [discriminate|].
  intros [= <- <-].
  change (c_slash :: c_slash :: a ++ b) with ((c_slash :: c_slash :: a) ++ b).
  symmetry. apply after_hash_skip.
  intros [H|[H|H]]; try discriminate.
  rewrite Forall_forall in Ha. specialize (Ha _ H). discriminate.
Qed.

Lemma split_netloc_In (url loc rest : str) (x : N) :
  split_netloc check url = Ok (loc, rest) -> In x loc \/ In x rest -> In x url.
Proof.
  unfold split_netloc.
  destruct url as [|c1 [|c2 t]]; try (intros [= <- <-]; intros [[]|H]; exact H).
  destruct ((c1 =? c_slash)%N && (c2 =? c_slash)%N);
    [|intros [= <- <-]; intros [[]|H]; exact H].
  destruct (span_until is_netloc_delim t) as [a b] eqn:Hsp.
  apply span_until_spec in Hsp as [-> Ha].
  destruct (xorb _ _); [discriminate|].
  destruct (_ && _); [discriminate|].
  intros [= <- <-] H. right. right. apply in_or_app. exact H.
Qed.

(** A URL without brackets is never refused. *)
Lemma split_netloc_without_brackets (url : str) :
  ~ In c_lbracket url -> ~ In c_rbracket url ->
  exists loc rest, split_netloc check url = Ok (loc, rest).
Proof.
  intros Hl Hr. unfold split_netloc.
  destruct url as [|c1 [|c2 t]]; try (eexists _, _; reflexivity).
  destruct ((c1 =? c_slash)%N && (c2 =? c_slash)%N); [|eexists _, _; reflexivity].
  destruct (span_until is_netloc_delim t) as [a b] eqn:Hsp.
  apply span_until_spec in Hsp as [-> Ha].
  replace (contains N.eqb c_lbracket a) with false.
  2:{ symmetry. apply (contains_not_In _ N.eqb N.eqb_eq). intros H. apply Hl.
      right. right. apply in_or_app. now left. }
  replace (contains N.eqb c_rbracket a) with false.
  2:{ symmetry. apply (contains_not_In _ N.eqb N.eqb_eq). intros H. apply Hr.
      right. right. apply in_or_app. now left. }
  cbn. eexists _, _; reflexivity.
Qed.

Lemma urlsplit_fragment (url : str) (r : SplitResult) :
  urlsplit check url = Ok r -> fragment r = after_hash (url_cleaned url).
Proof.
  unfold urlsplit. fold (url_cleaned url).
  destruct (split_scheme (url_cleaned url)) as [sch u2] eqn:Hsch.
  destruct (split_netloc check u2) as [[loc u3]|] eqn:Hloc; cbn; [|discriminate].
  rewrite <- (split_scheme_after_hash _ _ _ Hsch).
  rewrite <- (split_netloc_after_hash _ _ _ Hloc).
  unfold after_hash.
  destruct (cut N.eqb c_hash u3) as [[u4 frag]|];
    [destruct (cut N.eqb c_question u4) as [[u5 qry]|]
    |destruct (cut N.eqb c_question u3) as [[u5 qry]|]];
    now intros [= <-].
Qed.
End UrlFacts.

Lemma lstrip_In (A : Type) (p : A -> bool) (l : list A) (x : A) :
  In x (lstrip p l) -> In x l.
Proof.
  induction l as [|c t IH]; cbn; [auto|].
  destruct (p c); [right; now apply IH | auto].
Qed.

Lemma lstrip_app (A : Type) (p : A -> bool) (a b : list A) (c : A) :
  p c = false -> lstrip p (a ++ c :: b) = lstrip p a ++ c :: b.
Proof.
  intros Hc. induction a as [|x t IH]; cbn.
  - now rewrite Hc.
  - destruct (p x); [exact IH | reflexivity].
Qed.

Lemma url_cleaned_In (url : str) (x : N) : In x (url_cleaned url) -> In x url.
Proof.
  unfold url_cleaned. intros H. apply filter_In in H as [H _].
  now apply lstrip_In in H.
Qed.

Lemma lower_ascii (c : N) : is_ascii c -> is_ascii (lower c).
Proof.
  unfold is_ascii, lower. intros H.
  destruct (N.leb_spec 65 c), (N.leb_spec c 90); cbn; lia.
Qed.

Section UrlParseFacts.
Variable check : str -> bool.

(** Every component [urlsplit] returns is made of characters of the URL,
    the scheme in lower case. *)
Lemma urlsplit_components (url : str) (r : SplitResult) :
  urlsplit check url = Ok r ->
  (forall x, In x (scheme r) -> exists y, In y url /\ x = lower y)
  /\ (forall x, In x (netloc r) \/ In x (path r) \/ In x (query r) \/ In x (fragment r) ->
                In x url).
Proof.
  unfold urlsplit. fold (url_cleaned url).
  destruct (split_scheme (url_cleaned url)) as [sch u2] eqn:Hsch.
  destruct (split_netloc check u2) as [[loc u3]|] eqn:Hloc; cbn; [|discriminate].
  assert (H3 : forall x, In x loc \/ In x u3 -> In x url).
  { intros x H. apply url_cleaned_In. apply (split_scheme_In _ _ _ _ Hsch).
    now apply (split_netloc_In _ _ _ _ _ Hloc). }
  assert (Hs : forall x, In x sch -> exists y, In y url /\ x = lower y).
  { revert Hsch. unfold split_scheme.
    destruct (cut N.eqb c_colon (url_cleaned url)) as [[[|c before] rest]|] eqn:E;
      try (intros [= <- <-] x []).
    destruct (is_ascii_alpha c && forallb is_scheme_char (c :: before));
      [|intros [= <- <-] x []].
    intros [= <- <-] x Hx.
    change (In x (map lower (c :: before))) in Hx.
    apply in_map_iff in Hx as (y & <- & Hy).
    exists y. split; [|reflexivity].
    apply url_cleaned_In. apply (cut_Some _ N.eqb N.eqb_eq) in E as [-> _].
    apply in_or_app. now left. }
  assert (Hcut : forall (sep : N) (l a b : str) (x : N),
             cut N.eqb sep l = Some (a, b) -> In x a \/ In x b -> In x l).
  { intros sep l a b x E H. apply (cut_Some _ N.eqb N.eqb_eq) in E as [-> _].
    apply in_or_app. destruct H; [now left | right; now right]. }
  destruct (cut N.eqb c_hash u3) as [[u4 frag]|] eqn:E4;
    [destruct (cut N.eqb c_question u4) as [[u5 qry]|] eqn:E5
    |destruct (cut N.eqb c_question u3) as [[u5 qry]|] eqn:E5];
    intros [= <-]; cbn; (split; [exact Hs|]); intros x H; apply H3;
    try pose proof (Hcut _ _ _ _ x E4) as H4;
    try pose proof (Hcut _ _ _ _ x E5) as H5;
    intuition.
Qed.

Lemma urlsplit_without_brackets (url : str) :
  ~ In c_lbracket url -> ~ In c_rbracket url ->
  exists r, urlsplit check url = Ok r.
Proof.
  intros Hl Hr. unfold urlsplit. fold (url_cleaned url).
  destruct (split_scheme (url_cleaned url)) as [sch u2] eqn:Hsch.
  destruct (split_netloc_without_brackets check u2) as (loc & u3 & ->).
  - intros H. apply Hl, url_cleaned_In. now apply (split_scheme_In _ _ _ _ Hsch).
  - intros H. apply Hr, url_cleaned_In. now apply (split_scheme_In _ _ _ _ Hsch).
  - cbn. destruct (cut N.eqb c_hash u3) as [[u4 frag]|];
      [destruct (cut N.eqb c_question u4) as [[u5 qry]|]
      |destruct (cut N.eqb c_question u3) as [[u5 qry]|]]; eexists; reflexivity.
Qed.

(** The fragment of the result of [urlparse], whenever it returns. *)
Lemma urlparse_fragment (url : bytes) (r : SplitResultBytes) :
  urlparse check url = Ok r ->
  fragment_b r = map chr8 (fragment_of url) /\ Forall is_ascii (fragment_of url).
Proof.
  unfold urlparse, fragment_of.
  destruct (ascii_decode url) as [url'|] eqn:Hd; cbn; [|discriminate].
  apply ascii_decode_Ok in Hd as [-> _].
  destruct (urlsplit check (map ord url)) as [r0|] eqn:Hs; cbn; [|discriminate].
  rewrite <- (urlsplit_fragment _ _ _ Hs).
  destruct (ascii_encode (scheme r0)); cbn; [|discriminate].
  destruct (ascii_encode (netloc r0)); cbn; [|discriminate].
  destruct (ascii_encode (path r0)); cbn; [|discriminate].
  destruct (ascii_encode (query r0)); cbn; [|discriminate].
  destruct (ascii_encode (fragment r0)) as [fb|] eqn:Hf; cbn; [|discriminate].
  intros [= <-]. cbn. now apply ascii_encode_Ok.
Qed.

(** ASCII text without brackets is always parsed. *)
Lemma urlparse_without_brackets (url : bytes) :
  Forall (fun c => is_ascii (ord c)) url ->
  ~ In c_lbracket (map ord url) -> ~ In c_rbracket (map ord url) ->
  accepted_url check url.
Proof.
  intros Ha Hl Hr. unfold accepted_url, urlparse.
  rewrite ascii_decode_ascii by assumption. cbn.
  destruct (urlsplit_without_brackets _ Hl Hr) as [r0 Hs]. rewrite Hs. cbn.
  destruct (urlsplit_components _ _ Hs) as [Hsch Hrest].
  assert (Hu : forall x, In x (map ord url) -> is_ascii x).
  { intros x Hx. apply in_map_iff in Hx as (c & <- & Hc).
    rewrite Forall_forall in Ha. now apply Ha. }
  rewrite (ascii_encode_ascii (scheme r0)).
  2:{ apply Forall_forall. intros x Hx. destruct (Hsch _ Hx) as (y & Hy & ->).
      apply lower_ascii. now apply Hu. }
  cbn. rewrite (ascii_encode_ascii (netloc r0))
    by (apply Forall_forall; intros x Hx; apply Hu, Hrest; auto).
  cbn. rewrite (ascii_encode_ascii (path r0))
    by (apply Forall_forall; intros x Hx; apply Hu, Hrest; auto).
  cbn. rewrite (ascii_encode_ascii (query r0))
    by (apply Forall_forall; intros x Hx; apply Hu, Hrest; auto).
  cbn. rewrite (ascii_encode_ascii (fragment r0))
    by (apply Forall_forall; intros x Hx; apply Hu, Hrest; auto).
  cbn. eexists. reflexivity.
Qed.

(** ** Lines 137 to 139 *)

Lemma returned_fragments_Ok (received : bytes) (fragments : list str) :
  returned_fragments check received = Ok fragments ->
  fragments
  = split N.eqb c_amp
      (fragment_of (last_item (split_seq Byte.eqb CRLFCRLF 0 received))).
Proof.
  unfold returned_fragments, returned_url.
  destruct (urlparse check _) as [r|] eqn:Hp; cbn; [|discriminate].
  apply urlparse_fragment in Hp as [-> Ha].
  rewrite utf8_decode_ascii by assumption. cbn. now intros [= <-].
Qed.

Lemma returned_fragments_accepted (received : bytes) :
  accepted_url check (last_item (split_seq Byte.eqb CRLFCRLF 0 received)) ->
  returned_fragments check received
  = Ok (split N.eqb c_amp
          (fragment_of (last_item (split_seq Byte.eqb CRLFCRLF 0 received)))).
Proof.
  intros [r Hp]. unfold returned_fragments, returned_url. rewrite Hp. cbn.
  apply urlparse_fragment in Hp as [-> Hf].
  now rewrite utf8_decode_ascii by assumption.
Qed.

Lemma returned_fragments_without_brackets (received : bytes) :
  let url := last_item (split_seq Byte.eqb CRLFCRLF 0 received) in
  Forall (fun c => is_ascii (ord c)) url ->
  ~ In c_lbracket (map ord url) -> ~ In c_rbracket (map ord url) ->
  returned_fragments check received = Ok (split N.eqb c_amp (fragment_of url)).
Proof.
  intros url Ha Hl Hr. apply returned_fragments_accepted.
  now apply urlparse_without_brackets.
Qed.
End UrlParseFacts.

(** ** Dictionaries *)

Lemma str_eqb_eq (s t : str) : str_eqb s t = true <-> s = t.
Proof.
  unfold str_eqb. destruct (list_eq_dec N.eq_dec s t); intuition congruence.
Qed.

Lemma str_eqb_refl (s : str) : str_eqb s s = true.
Proof. now apply str_eqb_eq. Qed.

Lemma str_eqb_neq (s t : str) : s <> t -> str_eqb s t = false.
Proof.
  intros H. destruct (str_eqb s t) eqn:E; [|reflexivity].
  apply str_eqb_eq in E. contradiction.
Qed.

Lemma dict_get_set_same (k v : str) (d : dict) : dict_get k (dict_set k v d) = Some v.
Proof.
  induction d as [|[k' v'] r IH]; cbn.
  - now rewrite str_eqb_refl.
  - destruct (str_eqb k k') eqn:E; cbn; rewrite E; [reflexivity | exact IH].
Qed.

Lemma dict_get_set_other (k k' v : str) (d : dict) :
  k' <> k -> dict_get k' (dict_set k v d) = dict_get k' d.
Proof.
  intros H. induction d as [|[k0 v0] r IH]; cbn.
  - now rewrite str_eqb_neq.
  - destruct (str_eqb k k0) eqn:E; cbn.
    + apply str_eqb_eq in E. subst k0. now rewrite str_eqb_neq.
    + destruct (str_eqb k' k0); [reflexivity | exact IH].
Qed.

(** Looking a key up after the items were assigned in turn: the last item
    with that key wins. *)
Lemma dict_get_fold (k : str) (items : list (str * str)) (d : dict) :
  dict_get k (fold_left (fun d kv => dict_set (fst kv) (snd kv) d) items d)
  = match last_value k items with
    | Some v => Some v
    | None => dict_get k d
    end.
Proof.
  revert d. induction items as [|[k' v'] rest IH]; intros d; cbn; [reflexivity|].
  rewrite IH. destruct (last_value k rest); [reflexivity|].
  destruct (str_eqb k k') eqn:E.
  - apply str_eqb_eq in E. subst k'. apply dict_get_set_same.
  - apply dict_get_set_other. intros ->. now rewrite str_eqb_refl in E.
Qed.

Lemma dict_get_of_items (k : str) (items : list (str * str)) :
  dict_get k (dict_of_items items) = last_value k items.
Proof.
  unfold dict_of_items. rewrite dict_get_fold. now destruct (last_value k items).
Qed.

(** Fresh keys are appended in order. *)
Lemma dict_set_fresh (k v : str) (d : dict) :
  ~ In k (map fst d) -> dict_set k v d = d ++ [(k, v)].
Proof.
  induction d as [|[k' v'] r IH]; cbn; intros H; [reflexivity|].
  rewrite str_eqb_neq by (intros ->; apply H; now left).
  rewrite IH; [reflexivity|]. intros H'. apply H. now right.
Qed.

Lemma fold_dict_set_NoDup (items : list (str * str)) (d : dict) :
  NoDup (map fst (d ++ items)) ->
  fold_left (fun d kv => dict_set (fst kv) (snd kv) d) items d = d ++ items.
Proof.
  revert d. induction items as [|[k v] rest IH]; intros d H; cbn.
  - now rewrite app_nil_r.
  - rewrite dict_set_fresh.
    + rewrite IH; rewrite <- app_assoc; [reflexivity | exact H].
    + rewrite map_app in H. apply NoDup_remove_2 in H.
      intros Hin. apply H. apply in_or_app. now left.
Qed.

Lemma dict_of_items_NoDup (items : list (str * str)) :
  NoDup (map fst items) -> dict_of_items items = items.
Proof. intros H. unfold dict_of_items. now rewrite fold_dict_set_NoDup. Qed.

(** ** The loop of lines 144 to 147 *)

Lemma for_fragment_cons (frag : str) (rest : list str) (final : dict) :
  for_fragment (frag :: rest) final
  = match fragment_item frag with
    | Some (k, v) => for_fragment rest (dict_set k v final)
    | None => Raise IndexError
    end.
Proof.
  cbn [for_fragment]. unfold fragment_item.
  destruct (nth_error (fragment_pair frag) 1), (nth_error (fragment_pair frag) 0);
    reflexivity.
Qed.


(** A fragment whose decoded form holds an [=] has a key and a value: the
    first two pieces. *)
Lemma fragment_item_pair (frag : str) :
  In c_eq (decoded_fragment frag) -> exists kv, fragment_item frag = Some kv.
Proof.
  intros H. unfold fragment_item, fragment_pair.
  destruct (split_with _ N.eqb N.eqb_eq _ _ H) as (a & b & rest & -> & _).
  cbn. now exists (a, b).
Qed.

Lemma fragment_item_between (frag k v rest : str) :
  decoded_fragment frag = k ++ c_eq :: v ++ c_eq :: rest ->
  ~ In c_eq k -> ~ In c_eq v ->
  fragment_item frag = Some (k, v).
Proof.
  intros E Hk Hv. unfold fragment_item, fragment_pair. rewrite E.
  rewrite (split_app _ N.eqb N.eqb_eq) by assumption.
  rewrite (split_app _ N.eqb N.eqb_eq) by assumption. reflexivity.
Qed.

Lemma fragment_item_exact (frag k v : str) :
  decoded_fragment frag = k ++ c_eq :: v ->
  ~ In c_eq k -> ~ In c_eq v ->
  fragment_item frag = Some (k, v).
Proof.
  intros E Hk Hv. unfold fragment_item, fragment_pair. rewrite E.
  rewrite (split_app _ N.eqb N.eqb_eq) by assumption.
  rewrite (split_without _ N.eqb N.eqb_eq) by assumption. reflexivity.
Qed.


(** When every fragment is a pair the loop assigns them in turn. *)
Lemma for_fragment_all (fragments : list str) (final : dict) :
  Forall (fun frag => In c_eq (decoded_fragment frag)) fragments ->
  for_fragment fragments final
  = Ok (fold_left (fun d kv => dict_set (fst kv) (snd kv) d)
                  (fragment_items fragments) final).
Proof.
  intros H. revert final. induction H as [|frag rest H _ IH]; intros final;
    [reflexivity|].
  rewrite for_fragment_cons. unfold fragment_items. cbn [flat_map].
  destruct (fragment_item_pair _ H) as [[k v] ->]. cbn. apply IH.
Qed.

Lemma fragment_items_app (a b : list str) :
  fragment_items (a ++ b) = fragment_items a ++ fragment_items b.
Proof. unfold fragment_items. apply flat_map_app. Qed.

Section ParseFacts.
Variable check : str -> bool.

(** No [#], no fragment: the single empty piece is no pair. *)
Lemma final_data_without_hash (received : bytes) :
  ~ In c_hash (map ord (last_item (split_seq Byte.eqb CRLFCRLF 0 received))) ->
  exists e, final_data check received = Raise e.
Proof.
  intros H. unfold final_data.
  destruct (returned_fragments check received) as [fragments|e] eqn:E; cbn;
    [|now exists e].
  apply returned_fragments_Ok in E. subst fragments.
  unfold fragment_of. rewrite after_hash_without.
  - exists IndexError. reflexivity.
  - intros Hin. apply H. now apply url_cleaned_In.
Qed.


Lemma final_data_pairs (received : bytes) (fragments : list str) :
  returned_fragments check received = Ok fragments ->
  Forall (fun frag => In c_eq (decoded_fragment frag)) fragments ->
  final_data check received = Ok (dict_of_items (fragment_items fragments)).
Proof.
  intros E H. unfold final_data. rewrite E. cbn. now apply for_fragment_all.
Qed.
End ParseFacts.

(** ** The handler, path by path *)

Lemma post_is_not_get (text : str) :
  startswith N.eqb (str_lit "POST") text = true ->
  startswith N.eqb (str_lit "GET") text = false.
Proof.
  let l := eval vm_compute in (str_lit "POST") in change (str_lit "POST") with l.
  let l := eval vm_compute in (str_lit "GET") in change (str_lit "GET") with l.
  destruct text as [|c t]; cbn [startswith]; [discriminate|].
  destruct (N.eqb_spec 80 c) as [<-|]; [reflexivity | discriminate].
Qed.

Section HandlerFacts.
Variable check : str -> bool.

Lemma request_line_step (self : UrlFragmentFetchServer) (c : Connection) (text : str) :
  request_line c = Ok text ->
  handler_step check self c AtReadline
  = (self, after_request_line c,
     if startswith N.eqb (str_lit "GET") text then AtReaduntil
     else if startswith N.eqb (str_lit "POST") text then AtRead
     else Returned).
Proof.
  unfold request_line, after_request_line. cbn [handler_step].
  destruct (readline (reader c)) as [[line|e] rd]; cbn [fst snd bind]; [|discriminate].
  intros ->.
  destruct (startswith N.eqb (str_lit "GET") text); [reflexivity|].
  destruct (startswith N.eqb (str_lit "POST") text); reflexivity.
Qed.

Lemma run_handler_S (fuel : nat) (self : UrlFragmentFetchServer) (c : Connection)
    (pc : handler_pc) :
  run_handler check (S fuel) self c pc
  = run_handler check fuel (fst (fst (handler_step check self c pc)))
      (snd (fst (handler_step check self c pc))) (snd (handler_step check self c pc)).
Proof.
  cbn [run_handler]. now destruct (handler_step check self c pc) as [[self' c'] pc'].
Qed.

Lemma handle_request_line (self : UrlFragmentFetchServer) (c : Connection) (text : str) :
  request_line c = Ok text ->
  __handle_connection check self c
  = run_handler check 2 (set_connected true self) (after_request_line c)
      (if startswith N.eqb (str_lit "GET") text then AtReaduntil
       else if startswith N.eqb (str_lit "POST") text then AtRead
       else Returned).
Proof.
  intros Hl. unfold __handle_connection.
  rewrite run_handler_S.
  change (handler_step check self c Entry) with (set_connected true self, c, AtReadline).
  cbn [fst snd]. rewrite run_handler_S, (request_line_step _ _ _ Hl). reflexivity.
Qed.

(** A request that is neither GET nor POST: the handler returns at once,
    with the activity flag still up and the stream left open. *)
Lemma handle_other (self : UrlFragmentFetchServer) (c : Connection) (text : str) :
  request_line c = Ok text ->
  startswith N.eqb (str_lit "GET") text = false ->
  startswith N.eqb (str_lit "POST") text = false ->
  __handle_connection check self c
  = (set_connected true self, after_request_line c, Returned).
Proof.
  intros Hl Hg Hp. rewrite (handle_request_line _ _ _ Hl), Hg, Hp. reflexivity.
Qed.

Lemma handle_get (self : UrlFragmentFetchServer) (c : Connection) :
  is_get c = true ->
  __handle_connection check self c
  = run_handler check 2 (set_connected true self) (after_request_line c) AtReaduntil.
Proof.
  unfold is_get. destruct (request_line c) as [text|] eqn:Hl; [|discriminate].
  intros Hg. rewrite (handle_request_line _ _ _ Hl), Hg. reflexivity.
Qed.

Lemma handle_post (self : UrlFragmentFetchServer) (c : Connection) :
  is_post c = true ->
  __handle_connection check self c
  = run_handler check 2 (set_connected true self) (after_request_line c) AtRead.
Proof.
  unfold is_post. destruct (request_line c) as [text|] eqn:Hl; [|discriminate].
  intros Hp. rewrite (handle_request_line _ _ _ Hl), Hp, (post_is_not_get _ Hp).
  reflexivity.
Qed.

Lemma post_fails (self : UrlFragmentFetchServer) (c : Connection) (e : exn) :
  is_post c = true ->
  final_data check (post_data c) = Raise e ->
  parse_failure self c (__handle_connection check self c).
Proof.
  intros Hp Hf. rewrite (handle_post _ _ Hp).
  unfold post_data in Hf. cbn [run_handler]. cbn [handler_step].
  destruct (read 4096 (reader (after_request_line c))) as [received rd].
  cbn [fst] in Hf. rewrite Hf. cbn. repeat split; reflexivity.
Qed.

Lemma post_succeeds (self : UrlFragmentFetchServer) (c : Connection) (final : dict) :
  is_post c = true ->
  final_data check (post_data c) = Ok final ->
  parse_success final self c (__handle_connection check self c).
Proof.
  intros Hp Hf. rewrite (handle_post _ _ Hp).
  unfold post_data in Hf. cbn [run_handler]. cbn [handler_step].
  destruct (read 4096 (reader (after_request_line c))) as [received rd].
  cbn [fst] in Hf. rewrite Hf. cbn. repeat split; reflexivity.
Qed.

Lemma get_served (self : UrlFragmentFetchServer) (c : Connection)
    (line : bytes) (rd : StreamReader) :
  is_get c = true ->
  readuntil CRLF (reader (after_request_line c)) = (Ok line, rd) ->
  page_served self c (__handle_connection check self c)
  /\ reader (snd (fst (__handle_connection check self c))) = rd.
Proof.
  intros Hg Hr. rewrite (handle_get _ _ Hg).
  cbn [run_handler]. cbn [handler_step]. rewrite Hr. cbn.
  repeat split; try reflexivity.
  now rewrite <- !app_assoc.
Qed.

(** Whatever the connection brings, four steps take the handler to its end:
    it has returned or it has raised. *)
Lemma handle_connection_ends (self : UrlFragmentFetchServer) (c : Connection) :
  snd (__handle_connection check self c) = Returned
  \/ exists e, snd (__handle_connection check self c) = Raised e.
Proof.
  unfold __handle_connection. rewrite run_handler_S.
  change (handler_step check self c Entry) with (set_connected true self, c, AtReadline).
  cbn [fst snd]. rewrite run_handler_S.
  destruct (request_line c) as [text|e] eqn:Hl.
  - rewrite (request_line_step _ _ _ Hl). cbn [fst snd].
    destruct (startswith N.eqb (str_lit "GET") text);
      [|destruct (startswith N.eqb (str_lit "POST") text)].
    + rewrite run_handler_S. cbn [handler_step].
      destruct (readuntil CRLF (reader (after_request_line c))) as [[line|e] rd];
        cbn; eauto.
    + rewrite run_handler_S. cbn [handler_step].
      destruct (read 4096 (reader (after_request_line c))) as [received rd].
      destruct (final_data check received); cbn; eauto.
    + cbn. eauto.
  - right. exists e. revert Hl. unfold request_line. cbn [handler_step].
    destruct (readline (reader c)) as [[line|e'] rd]; cbn [fst bind].
    + intros ->. reflexivity.
    + intros [= ->]. reflexivity.
Qed.

(** The handler never touches the server object. *)
Lemma handler_step_server (self : UrlFragmentFetchServer) (c : Connection)
    (pc : handler_pc) :
  _server (fst (fst (handler_step check self c pc))) = _server self.
Proof.
  destruct pc; cbn [handler_step]; try reflexivity.
  - destruct (readline (reader c)) as [[line|e] rd]; [|reflexivity].
    destruct (utf8_decode line) as [text|]; [|reflexivity].
    destruct (startswith N.eqb (str_lit "GET") text); [reflexivity|].
    destruct (startswith N.eqb (str_lit "POST") text); reflexivity.
  - destruct (readuntil CRLF (reader c)) as [[line|e] rd]; reflexivity.
  - destruct (read 4096 (reader c)) as [received rd].
    destruct (final_data check received); reflexivity.
Qed.
End HandlerFacts.

(** ** Percent-encoded text *)

Lemma quote_octet_chars (c : byte) : forallb is_quoted_char (quote_octet c) = true.
Proof. destruct c; reflexivity. Qed.

Lemma quote_octet_no_delim (c : byte) :
  forallb (fun q => negb (ord q =? c_eq)%N && negb (ord q =? c_amp)%N)
          (quote_octet c) = true.
Proof. destruct c; reflexivity. Qed.

Lemma is_quoted_char_spec (c : byte) :
  is_quoted_char c = true ->
  is_ascii (ord c) /\ is_unsafe_url_char (ord c) = false
  /\ ord c <> c_hash /\ ord c <> c_lbracket /\ ord c <> c_rbracket.
Proof.
  destruct c; cbv; try discriminate; intros _; repeat split; try reflexivity;
    discriminate.
Qed.

Lemma flat_map_forallb (A B : Type) (f : A -> list B) (p : B -> bool) (l : list A) :
  (forall x, forallb p (f x) = true) -> forallb p (flat_map f l) = true.
Proof.
  intros H. induction l as [|x t IH]; cbn; [reflexivity|].
  now rewrite forallb_app, H, IH.
Qed.

Lemma quote_Ok (s : str) (q : bytes) :
  quote s = Ok q ->
  exists bs, utf8_encode s = Ok bs /\ q = flat_map quote_octet bs.
Proof.
  unfold quote. destruct (utf8_encode s) as [bs|]; cbn; [|discriminate].
  intros [= <-]. now exists bs.
Qed.

Lemma quote_chars (s : str) (q : bytes) :
  quote s = Ok q -> forallb is_quoted_char q = true.
Proof.
  intros H. apply quote_Ok in H as (bs & _ & ->).
  apply flat_map_forallb, quote_octet_chars.
Qed.

Lemma quote_no_delim (s : str) (q : bytes) (c : N) :
  quote s = Ok q -> c = c_eq \/ c = c_amp -> ~ In c (map ord q).
Proof.
  intros H Hc Hin. apply quote_Ok in H as (bs & _ & ->).
  apply in_map_iff in Hin as (x & Hx & Hin).
  pose proof (flat_map_forallb _ _ _ _ bs quote_octet_no_delim) as Hall.
  rewrite forallb_forall in Hall. specialize (Hall _ Hin).
  apply andb_prop in Hall as [H1 H2].
  destruct Hc; subst c; rewrite Hx in *; [discriminate H1 | discriminate H2].
Qed.

(** Every string of scalar values, and so every printable string, has a
    percent-encoded form. *)
Lemma utf8_encode_scalar (s : str) :
  Forall (fun c => is_scalar c = true) s -> exists bs, utf8_encode s = Ok bs.
Proof.
  induction 1 as [|c t Hc _ [bs IH]]; cbn; [now exists []|].
  unfold utf8_encode_char. rewrite Hc. cbn [negb].
  destruct (c <? 128)%N; [|destruct (c <? 2048)%N; [|destruct (c <? 65536)%N]];
    cbn; rewrite IH; cbn; eexists; reflexivity.
Qed.

Lemma quote_scalar (s : str) :
  Forall (fun c => is_scalar c = true) s -> exists q, quote s = Ok q.
Proof.
  intros H. destruct (utf8_encode_scalar _ H) as [bs E].
  unfold quote. rewrite E. cbn. eexists. reflexivity.
Qed.

Lemma encode_fragment_scalar (items : list (str * str)) :
  Forall (fun kv => Forall (fun c => is_scalar c = true) (fst kv)
                    /\ Forall (fun c => is_scalar c = true) (snd kv)) items ->
  exists frag, encode_fragment items = Ok frag.
Proof.
  induction 1 as [|[k v] rest [Hk Hv] _ [r IH]]; [now exists []|].
  cbn [encode_fragment]. unfold quote_item. cbn [fst snd] in *.
  destruct (quote_scalar k Hk) as [qk ->], (quote_scalar v Hv) as [qv ->].
  cbn [bind]. destruct rest; [eexists; reflexivity|].
  rewrite IH. cbn [bind]. eexists. reflexivity.
Qed.

Lemma utf8_decode_replace_cons_ascii (c : byte) (rest : bytes) :
  is_ascii (ord c) ->
  utf8_decode_replace (c :: rest) = ord c :: utf8_decode_replace rest.
Proof.
  unfold is_ascii. intros H. apply N.ltb_lt in H.
  unfold utf8_decode_replace. cbn [utf8_items]. now rewrite H.
Qed.

(** Decoding a percent-encoded pair gives the pair back. *)
Lemma decoded_quote_item (k v : str) (p : bytes) :
  quote_item (k, v) = Ok p ->
  decoded_fragment (map ord p) = k ++ c_eq :: v
  /\ forallb is_quoted_char p = true
  /\ ~ In c_amp (map ord p).
Proof.
  unfold quote_item. cbn [fst snd].
  destruct (quote k) as [qk|] eqn:Ek; cbn; [|discriminate].
  destruct (quote v) as [qv|] eqn:Ev; cbn; [|discriminate].
  intros [= <-].
  pose proof (quote_chars _ _ Ek) as Ck. pose proof (quote_chars _ _ Ev) as Cv.
  assert (Call : forallb is_quoted_char (qk ++ x3d :: qv) = true).
  { rewrite forallb_app. cbn [forallb]. now rewrite Ck, Cv. }
  split; [|split; [exact Call|]].
  - unfold decoded_fragment. rewrite unquote_ascii.
    2:{ apply Forall_forall. intros x Hx. apply in_map_iff in Hx as (c & <- & Hc).
        rewrite forallb_forall in Call. now apply is_quoted_char_spec, Call. }
    rewrite map_chr8_ord. unfold unquote_run.
    apply quote_Ok in Ek as (kb & Hk & ->). apply quote_Ok in Ev as (vb & Hv & ->).
    rewrite unquote_to_bytes_quoted.
    rewrite unquote_to_bytes_plain by discriminate.
    rewrite <- (app_nil_r (flat_map quote_octet vb)), unquote_to_bytes_quoted.
    cbn [unquote_to_bytes]. rewrite app_nil_r.
    rewrite (utf8_decode_replace_encode _ _ _ Hk).
    rewrite utf8_decode_replace_cons_ascii by (cbv; reflexivity).
    rewrite <- (app_nil_r vb), (utf8_decode_replace_encode _ _ _ Hv).
    cbn. now rewrite app_nil_r.
  - rewrite map_app. cbn [map]. intros H.
    apply in_app_or in H as [H|[H|H]].
    + revert H. apply (quote_no_delim _ _ _ Ek). now right.
    + discriminate.
    + revert H. apply (quote_no_delim _ _ _ Ev). now right.
Qed.

Lemma fragment_item_quote_item (kv : str * str) (p : bytes) :
  plain_item kv -> quote_item kv = Ok p -> fragment_item (map ord p) = Some kv.
Proof.
  destruct kv as [k v]. intros [[Hk _] [Hv _]] H.
  apply decoded_quote_item in H as (E & _).
  now apply fragment_item_exact.
Qed.

(** The pieces of an encoded fragment are the encoded pairs, in order. *)
Lemma encode_fragment_pieces (items : list (str * str)) (frag : bytes) :
  items <> [] ->
  encode_fragment items = Ok frag ->
  forallb is_quoted_char frag = true
  /\ exists pieces,
      Forall2 (fun kv p => quote_item kv = Ok p) items pieces
      /\ split N.eqb c_amp (map ord frag) = map (map ord) pieces.
Proof.
  revert frag. induction items as [|kv rest IH]; intros frag Hne; [contradiction|].
  cbn [encode_fragment].
  destruct (quote_item kv) as [p|] eqn:Ep; cbn [bind]; [|discriminate].
  destruct kv as [k v].
  destruct (decoded_quote_item _ _ _ Ep) as (_ & Cp & Hamp).
  destruct rest as [|kv' rest'].
  - intros [= <-]. split; [exact Cp|]. exists [p]. split.
    + constructor; [assumption | constructor].
    + now rewrite (split_without _ N.eqb N.eqb_eq).
  - destruct (encode_fragment (kv' :: rest')) as [r|] eqn:Er; cbn [bind]; [|discriminate].
    intros [= <-].
    destruct (IH r ltac:(discriminate) eq_refl) as (Cr & pieces & Hall & Hs).
    split.
    + rewrite forallb_app. cbn [forallb]. now rewrite Cp, Cr.
    + exists (p :: pieces). split; [now constructor|].
      rewrite map_app. cbn [map].
      change (ord x26) with c_amp.
      rewrite (split_app _ N.eqb N.eqb_eq) by assumption. now rewrite Hs.
Qed.

Lemma for_fragment_items (items : list (str * str)) (pieces : list str) (final : dict) :
  Forall2 (fun kv p => fragment_item p = Some kv) items pieces ->
  for_fragment pieces final
  = Ok (fold_left (fun d kv => dict_set (fst kv) (snd kv) d) items final).
Proof.
  intros H. revert final. induction H as [|[k v] p items' pieces' Hp _ IH];
    intros final; [reflexivity|].
  rewrite for_fragment_cons, Hp. apply IH.
Qed.

(** The fragment [urlsplit] finds is the encoded fragment, untouched. *)
Lemma fragment_of_url (prefix frag : bytes) :
  url_before_fragment prefix ->
  forallb is_quoted_char frag = true ->
  fragment_of (prefix ++ x23 :: frag) = map ord frag.
Proof.
  intros Hp Hf. unfold fragment_of, url_cleaned.
  rewrite map_app. cbn [map]. change (ord x23) with c_hash.
  rewrite lstrip_app by reflexivity.
  rewrite filter_app. cbn [filter].
  change (negb (is_unsafe_url_char c_hash)) with true. cbv iota.
  replace (filter _ (map ord frag)) with (map ord frag).
  - apply after_hash_app. intros H. apply filter_In in H as [H _].
    apply lstrip_In in H. contradiction.
  - symmetry. apply forallb_filter_id. rewrite forallb_forall.
    intros x Hx. apply in_map_iff in Hx as (c & <- & Hc).
    rewrite forallb_forall in Hf.
    destruct (is_quoted_char_spec _ (Hf _ Hc)) as (_ & -> & _). reflexivity.
Qed.

Section EncodedFragment.
Variable check : str -> bool.

Lemma final_data_of_encoded (received prefix frag : bytes) (items : list (str * str)) :
  items <> [] ->
  Forall plain_item items ->
  encode_fragment items = Ok frag ->
  url_before_fragment prefix ->
  accepted_url check (prefix ++ x23 :: frag) ->
  last_item (split_seq Byte.eqb CRLFCRLF 0 received) = prefix ++ x23 :: frag ->
  final_data check received = Ok (dict_of_items items).
Proof.
  intros Hne Hplain Henc Hpre Hacc Hbody.
  destruct (encode_fragment_pieces _ _ Hne Henc) as (Cf & pieces & Hq & Hs).
  unfold final_data.
  rewrite returned_fragments_accepted; rewrite Hbody; [|assumption].
  rewrite (fragment_of_url _ _ Hpre Cf), Hs. cbn [bind].
  apply for_fragment_items.
  clear - Hq Hplain. induction Hq as [|kv p items' pieces' Hp _ IH]; cbn;
    constructor.
  - apply fragment_item_quote_item; [now inversion Hplain | assumption].
  - apply IH. now inversion Hplain.
Qed.

(** A URL written without brackets before the fragment is accepted by every
    interpreter. *)
Lemma accepted_without_brackets (prefix frag : bytes) :
  Forall (fun c => is_ascii (ord c) /\ ord c <> c_lbracket /\ ord c <> c_rbracket)
         prefix ->
  forallb is_quoted_char frag = true ->
  accepted_url check (prefix ++ x23 :: frag).
Proof.
  intros Hpre Cf.
  assert (Hchars : forall c, In c (prefix ++ x23 :: frag) ->
            is_ascii (ord c) /\ ord c <> c_lbracket /\ ord c <> c_rbracket).
  { intros c Hc. apply in_app_or in Hc as [Hc|[<-|Hc]].
    - rewrite Forall_forall in Hpre. now apply Hpre.
    - cbv. repeat split; discriminate.
    - rewrite forallb_forall in Cf.
      destruct (is_quoted_char_spec _ (Cf _ Hc)) as (? & _ & _ & ? & ?). auto. }
  apply urlparse_without_brackets.
  - apply Forall_forall. intros c Hc. now apply Hchars.
  - intros H. apply in_map_iff in H as (c & E & Hc).
    destruct (Hchars _ Hc) as (_ & Hl & _). contradiction.
  - intros H. apply in_map_iff in H as (c & E & Hc).
    destruct (Hchars _ Hc) as (_ & _ & Hr). contradiction.
Qed.
End EncodedFragment.

(** ** The event loop *)

Section LoopFacts.
Variable check : str -> bool.

Lemma loop_step_closed (l : Loop) (ev : event) :
  serving l = false -> loop_step check l ev = l.
Proof. intros H. unfold loop_step. now rewrite H. Qed.

Lemma run_loop_app (evs evs' : list event) (l : Loop) :
  run_loop check (evs ++ evs') l = run_loop check evs' (run_loop check evs l).
Proof. unfold run_loop. apply fold_left_app. Qed.

Lemma guard_test_cases (self : UrlFragmentFetchServer) (srv : Server) :
  _server self = Some srv ->
  (guard_test self = (self, GuardSleeping)
   /\ _keep_running self || _connected self = true)
  \/ (guard_test self = (set_server (Some (server_close srv)) self, GuardClosed)
      /\ _keep_running self = false /\ _connected self = false).
Proof.
  intros Hs. unfold guard_test. rewrite Hs.
  destruct (_keep_running self), (_connected self); cbn; auto.
Qed.

Lemma start_server_invariant (self : UrlFragmentFetchServer) :
  loop_invariant (__start_server self).
Proof.
  eexists. split; [reflexivity|]. left. cbn. repeat split. discriminate.
Qed.

Lemma loop_step_invariant (l : Loop) (ev : event) :
  loop_invariant l -> loop_invariant (loop_step check l ev).
Proof.
  intros (srv & Hs & Hcase).
  destruct Hcase as [(Hserv & Hcalls & Hg)|Hclosed].
  2:{ rewrite loop_step_closed; [exists srv; auto|].
      unfold serving. rewrite Hs. tauto. }
  unfold loop_step, serving. rewrite Hs, Hserv. cbn [negb].
  destruct ev as [now|c|i].
  - unfold __time_out_shutdown.
    destruct (guard l) eqn:Eg; [| | contradiction |].
    + destruct (guard_test_cases _ _ Hs) as [[-> _]|(-> & Hk & Hc)]; cbn.
      * exists srv. split; [assumption|]. left. repeat split; auto; discriminate.
      * eexists. split; [reflexivity|]. right. cbn. rewrite Hcalls. auto.
    + set (self' := if (_timeout_time (server_self l) <=? now)%Z
                    then set_keep_running false (set_msg (Some msg_timeout) (server_self l))
                    else server_self l).
      assert (Hs' : _server self' = Some srv)
        by (subst self'; destruct (_ <=? _)%Z; exact Hs).
      replace (if (_timeout_time (server_self l) <=? now)%Z then _ else _)
        with (guard_test self') by (subst self'; now destruct (_ <=? _)%Z).
      destruct (guard_test_cases _ _ Hs') as [[-> _]|(-> & Hk & Hc)]; cbn.
      * exists srv. split; [assumption|]. left. repeat split; auto; discriminate.
      * eexists. split; [reflexivity|]. right. cbn. rewrite Hcalls. auto.
    + cbn. exists srv. split; [assumption|]. left. repeat split; auto; discriminate.
  - cbn. exists srv. auto.
  - destruct (nth_error (handlers l) i) as [[c pc]|]; [|exists srv; auto].
    pose proof (handler_step_server check (server_self l) c pc) as Hh.
    destruct (handler_step check (server_self l) c pc) as [[self' c'] pc'].
    cbn in Hh. exists srv. cbn. rewrite Hh. auto.
Qed.

Lemma run_loop_invariant (evs : list event) (l : Loop) :
  loop_invariant l -> loop_invariant (run_loop check evs l).
Proof.
  revert l. induction evs as [|ev evs IH]; intros l H; [exact H|].
  cbn. apply IH. now apply loop_step_invariant.
Qed.


(** Once a handler has returned with the activity flag up and no handler is
    left to take it down, the timeout coroutine sleeps for ever. *)
Lemma guard_never_leaves (nows : list Z) (l : Loop) :
  serving l = true ->
  _connected (server_self l) = true ->
  guard l = GuardCreated \/ guard l = GuardSleeping ->
  serving (run_loop check (map Wake nows) l) = true
  /\ _connected (server_self (run_loop check (map Wake nows) l)) = true
  /\ data (server_self (run_loop check (map Wake nows) l)) = data (server_self l).
Proof.
  revert l. induction nows as [|now nows IH]; intros l Hs Hc Hg; [cbn; auto|].
  change (run_loop check (map Wake (now :: nows)) l)
    with (run_loop check (map Wake nows) (loop_step check l (Wake now))).
  assert (Hstep : serving (loop_step check l (Wake now)) = true
                  /\ _connected (server_self (loop_step check l (Wake now))) = true
                  /\ guard (loop_step check l (Wake now)) = GuardSleeping
                  /\ data (server_self (loop_step check l (Wake now)))
                     = data (server_self l)).
  { unfold loop_step. rewrite Hs. cbn [negb]. unfold __time_out_shutdown.
    destruct Hg as [-> | ->].
    - unfold guard_test. rewrite Hc, orb_true_r. cbn. auto.
    - destruct (_ <=? _)%Z; unfold guard_test; cbn; rewrite Hc, ?orb_true_r; cbn; auto. }
  destruct Hstep as (Hs' & Hc' & Hg' & Hd').
  destruct (IH _ Hs' Hc' (or_intror Hg')) as (? & ? & ?).
  repeat split; congruence.
Qed.
End LoopFacts.

Lemma last_value_app (k : str) (a b : list (str * str)) :
  last_value k (a ++ b)
  = match last_value k b with
    | Some v => Some v
    | None => last_value k a
    end.
Proof.
  induction a as [|[k' v'] a IH]; cbn.
  - now destruct (last_value k b).
  - rewrite IH. destruct (last_value k b); [reflexivity|].
    now destruct (last_value k a).
Qed.

Lemma last_value_absent (k : str) (items : list (str * str)) :
  ~ In k (map fst items) -> last_value k items = None.
Proof.
  induction items as [|[k' v'] rest IH]; cbn; intros H; [reflexivity|].
  rewrite IH by (intros H'; apply H; now right).
  rewrite str_eqb_neq; [reflexivity|]. intros ->. apply H. now left.
Qed.

Lemma fragment_items_keys (k : str) (fragments : list str) :
  Forall (fun f => nth_error (fragment_pair f) 0 <> Some k) fragments ->
  ~ In k (map fst (fragment_items fragments)).
Proof.
  induction 1 as [|f rest Hf _ IH]; cbn; [auto|].
  unfold fragment_items in *. cbn [flat_map]. rewrite map_app. intros H.
  apply in_app_or in H as [H|H]; [|contradiction].
  unfold fragment_item in H.
  destruct (nth_error (fragment_pair f) 1); [|destruct H].
  destruct (nth_error (fragment_pair f) 0) as [k'|]; [|destruct H].
  destruct H as [<-|[]]. now apply Hf.
Qed.

(** * The claims *)

(** C1, as amended: for every non-empty mapping whose keys and values can be
    percent-encoded (as every printable string can) and hold no raw [&] or
    [=], posting a URL that carries the encoded mapping after its [#] makes
    the handler capture a dictionary equal to the mapping, a later
    duplicate of a key overwriting the earlier one. *)
Theorem round_trip (check : str -> bool) (self : UrlFragmentFetchServer)
    (c : Connection) (items : list (str * str)) (prefix frag : bytes) :
  is_post c = true ->
  items <> [] ->
  Forall plain_item items ->
  encode_fragment items = Ok frag ->
  url_before_fragment prefix ->
  accepted_url check (prefix ++ x23 :: frag) ->
  post_body c = prefix ++ x23 :: frag ->
  parse_success (dict_of_items items) self c (__handle_connection check self c)
  /\ (forall k, dict_get k (dict_of_items items) = last_value k items)
  /\ (NoDup (map fst items) -> dict_of_items items = items).
Proof.
  intros Hpost Hne Hplain Henc Hpre Hacc Hbody. split; [|split].
  - apply post_succeeds; [assumption|].
    now apply (final_data_of_encoded check _ prefix frag).
  - intros k. apply dict_get_of_items.
  - apply dict_of_items_NoDup.
Qed.

Lemma round_trip_witness :
  parse_success (dict_of_items example_items) example_server
    (connection (post_request
       (local_url ++ bytes_lit "#access_token=abc&scope=chat%3Aread")))
    (__handle_connection any_netloc example_server
       (connection (post_request
          (local_url ++ bytes_lit "#access_token=abc&scope=chat%3Aread")))).
Proof.
  refine (proj1 (round_trip any_netloc example_server _ example_items local_url
                   (bytes_lit "access_token=abc&scope=chat%3Aread") _ _ _ _ _ _ _)).
  - vm_compute. reflexivity.
  - discriminate.
  - repeat constructor; cbv; intuition discriminate.
  - vm_compute. reflexivity.
  - vm_compute. intuition discriminate.
  - eexists. vm_compute. reflexivity.
  - vm_compute. reflexivity.
Defined.

(** C1 as stated fails on the empty mapping: its encoding is the empty
    fragment, which the handler rejects. *)
Lemma round_trip_fails_on_empty_mapping :
  encode_fragment [] = Ok []
  /\ is_post (connection (post_request (local_url ++ [x23]))) = true
  /\ url_before_fragment local_url
  /\ accepted_url any_netloc (local_url ++ x23 :: [])
  /\ post_body (connection (post_request (local_url ++ [x23]))) = local_url ++ x23 :: []
  /\ data (fst (fst (__handle_connection any_netloc example_server
                       (connection (post_request (local_url ++ [x23]))))))
     <> Some (dict_of_items []).
Proof.
  split; [reflexivity|]. split; [vm_compute; reflexivity|].
  split; [vm_compute; intuition discriminate|].
  split; [eexists; vm_compute; reflexivity|].
  split; [vm_compute; reflexivity | vm_compute; discriminate].
Qed.

(** C2: the loop does not cut a pair at its first [=] and decode the two
    sides; it decodes the pair and keeps the first two pieces of the split
    on every [=].  On this body the module captures [abc] and [a] where the
    parser of the specification returns [abc==] and [a=b]. *)
Theorem value_with_equals_is_truncated :
  final_data any_netloc
    (post_data (connection (post_request
       (local_url ++ bytes_lit "#access_token=abc%3D%3D&state=a=b"))))
  = Ok [(str_lit "access_token", str_lit "abc"); (str_lit "state", str_lit "a")]
  /\ spec_final_data any_netloc
       (post_data (connection (post_request
          (local_url ++ bytes_lit "#access_token=abc%3D%3D&state=a=b"))))
     = Ok [(str_lit "access_token", str_lit "abc=="); (str_lit "state", str_lit "a=b")].
Proof. split; vm_compute; reflexivity. Qed.




(** C4, as amended: for every POST whose URL holds no [#], the fragment is
    empty, its split is a single empty piece, and that piece is no pair:
    parsing fails, with the outcome of any other parse failure. *)
Theorem no_hash_rejected (check : str -> bool) (self : UrlFragmentFetchServer)
    (c : Connection) :
  is_post c = true ->
  ~ In c_hash (map ord (post_body c)) ->
  parse_failure self c (__handle_connection check self c).
Proof.
  intros Hpost Hno.
  destruct (final_data_without_hash check (post_data c) Hno) as [e He].
  now apply (post_fails check self c e).
Qed.

Lemma no_hash_rejected_witness :
  parse_failure example_server (connection (post_request local_url))
    (__handle_connection any_netloc example_server
       (connection (post_request local_url))).
Proof.
  apply (no_hash_rejected any_netloc example_server).
  - vm_compute. reflexivity.
  - vm_compute. intuition discriminate.
Defined.

(** C4 as stated fails: a URL without [#] does not give the empty mapping,
    it gives a parse failure. *)
Lemma no_hash_is_not_an_empty_mapping :
  ~ In c_hash (map ord (post_body (connection (post_request local_url))))
  /\ final_data any_netloc (post_data (connection (post_request local_url)))
     = Raise IndexError
  /\ final_data any_netloc (post_data (connection (post_request local_url)))
     <> Ok []
  /\ data (fst (fst (__handle_connection any_netloc example_server
                       (connection (post_request local_url)))))
     = None.
Proof.
  split; [vm_compute; intuition discriminate|].
  split; [vm_compute; reflexivity|].
  split; [vm_compute; discriminate | vm_compute; reflexivity].
Qed.

(** C5: a request that is neither GET nor POST makes the handler return at
    once, but not with the session as it found it: the activity flag, set
    on entry, stays up, and the stream is left open. *)
Theorem noise_leaves_activity_flag_up (check : str -> bool)
    (self : UrlFragmentFetchServer) (c : Connection) (text : str) :
  request_line c = Ok text ->
  startswith N.eqb (str_lit "GET") text = false ->
  startswith N.eqb (str_lit "POST") text = false ->
  __handle_connection check self c
  = (set_connected true self, after_request_line c, Returned)
  /\ _connected (fst (fst (__handle_connection check self c))) = true
  /\ writer (snd (fst (__handle_connection check self c))) = writer c.
Proof.
  intros Hl Hg Hp. rewrite (handle_other check self c text Hl Hg Hp).
  repeat split.
Qed.

Lemma noise_leaves_activity_flag_up_witness :
  _connected example_server = false
  /\ _connected (fst (fst (__handle_connection any_netloc example_server
                             (connection head_request)))) = true
  /\ closed (writer (snd (fst (__handle_connection any_netloc example_server
                                 (connection head_request))))) = false.
Proof.
  split; [reflexivity|].
  destruct (noise_leaves_activity_flag_up any_netloc example_server
              (connection head_request) (str_lit "HEAD / HTTP/1.1" ++ [13; 10]%N))
    as (_ & Hc & Hw).
  - vm_compute. reflexivity.
  - vm_compute. reflexivity.
  - vm_compute. reflexivity.
  - split; [exact Hc|]. rewrite Hw. reflexivity.
Defined.

(** C6: after one request that is neither GET nor POST, [start()] never
    returns, whatever the clock reads when the timeout coroutine wakes up
    and however often it does: the activity flag stays up, so the loop of
    line 48 never ends. *)
Theorem start_never_returns_after_noise (check : str -> bool)
    (now timeout : Z) (port : N) (c : Connection) (text : str) (nows : list Z) :
  request_line c = Ok text ->
  startswith N.eqb (str_lit "GET") text = false ->
  startswith N.eqb (str_lit "POST") text = false ->
  start check (__init__ now timeout port)
    ([Accept c; Resume 0; Resume 0] ++ map Wake nows)
  = None.
Proof.
  intros Hl Hg Hp. unfold start. rewrite run_loop_app.
  set (l := run_loop check [Accept c; Resume 0; Resume 0]
              (__start_server (__init__ now timeout port))).
  assert (El : l = {| server_self :=
                        set_connected true
                          (server_self (__start_server (__init__ now timeout port)));
                      guard := GuardCreated;
                      handlers := [(after_request_line c, Returned)] |}).
  { subst l. unfold run_loop. cbn [fold_left].
    change (loop_step check (__start_server (__init__ now timeout port)) (Accept c))
      with {| server_self := server_self (__start_server (__init__ now timeout port));
              guard := GuardCreated; handlers := [(c, Entry)] |}.
    unfold loop_step at 2. cbn [serving server_self _server negb is_serving
      __start_server __init__ set_server handlers nth_error handler_step guard set_nth].
    unfold loop_step. cbn [serving server_self _server negb is_serving
      __start_server __init__ set_server set_connected handlers nth_error guard].
    rewrite (request_line_step check _ c text Hl), Hg, Hp. reflexivity. }
  destruct (guard_never_leaves check nows l) as (Hs & _).
  - rewrite El. reflexivity.
  - rewrite El. reflexivity.
  - left. rewrite El. reflexivity.
  - now rewrite Hs.
Qed.

Lemma start_never_returns_after_noise_witness :
  start any_netloc example_server
    ([Accept (connection head_request); Resume 0; Resume 0]
     ++ map Wake [1; 60; 120; 121; 3600]%Z)
  = None.
Proof.
  apply (start_never_returns_after_noise any_netloc 0 120 1000
           (connection head_request) (str_lit "HEAD / HTTP/1.1" ++ [13; 10]%N)).
  - vm_compute. reflexivity.
  - vm_compute. reflexivity.
  - vm_compute. reflexivity.
Defined.

(** A run in which the deadline passes while the POST is being answered:
    the timeout and the handler both ask for the shutdown, the server is
    closed once, after the handler is done, and [start()] returns what was
    captured. *)
Example shutdown_requested_twice :
  let evs := [Accept (connection get_request); Resume 0; Resume 0; Wake 1;
              Resume 0; Resume 0;
              Accept (connection (post_request (local_url ++ bytes_lit "#a=b")));
              Resume 1; Resume 1; Resume 1; Wake 120; Resume 1; Wake 121] in
  start any_netloc example_server evs = Some (Some [(str_lit "a", str_lit "b")])
  /\ close_count (run_loop any_netloc evs (__start_server example_server)) = 1
  /\ serving (run_loop any_netloc (removelast evs) (__start_server example_server))
     = true.
Proof. repeat split; vm_compute; reflexivity. Qed.

(** C7, as amended: for every connection whose request line begins with GET
    and is followed by a line that ends in CRLF, the handler reads that one
    line (what comes after it stays unread), writes the [200 OK] status
    line, the content type, a blank line and the page, closes the stream,
    takes the activity flag down and leaves [_keep_running] alone. *)
Theorem get_serves_page (check : str -> bool) (self : UrlFragmentFetchServer)
    (c : Connection) (line : bytes) (rd : StreamReader) :
  is_get c = true ->
  readuntil CRLF (reader (after_request_line c)) = (Ok line, rd) ->
  page_served self c (__handle_connection check self c)
  /\ reader (snd (fst (__handle_connection check self c))) = rd.
Proof. intros Hg Hr. now apply (get_served check self c line rd). Qed.

Lemma get_serves_page_witness :
  page_served example_server (connection get_request)
    (__handle_connection any_netloc example_server (connection get_request))
  /\ buffer (reader (snd (fst (__handle_connection any_netloc example_server
                                 (connection get_request)))))
     = bytes_lit "Accept: text/html" ++ CRLF ++ CRLF.
Proof.
  destruct (get_serves_page any_netloc example_server (connection get_request)
              (bytes_lit "Host: localhost:1000" ++ CRLF)
              {| buffer := bytes_lit "Accept: text/html" ++ CRLF ++ CRLF;
                 chunk := 4096 |}) as [Hp Hr].
  - vm_compute. reflexivity.
  - vm_compute. reflexivity.
  - split; [exact Hp|]. rewrite Hr. reflexivity.
Defined.

(** C7 as stated fails twice.  The headers are not read up to the blank
    line: after a request with two header lines the second is still in the
    buffer.  And a request line the stream ends after gets no answer: the
    handler raises, nothing is written and the activity flag stays up. *)
Lemma get_does_not_drain_headers :
  is_get (connection get_request) = true
  /\ buffer (reader (snd (fst (__handle_connection any_netloc example_server
                                 (connection get_request)))))
     <> buffer (snd (readuntil CRLFCRLF
                       (reader (after_request_line (connection get_request)))))
  /\ is_get (connection (bytes_lit "GET / HTTP/1.0" ++ [LF])) = true
  /\ __handle_connection any_netloc example_server
       (connection (bytes_lit "GET / HTTP/1.0" ++ [LF]))
     = (set_connected true example_server,
        {| reader := {| buffer := []; chunk := 4096 |};
           writer := {| written := []; closed := false |} |},
        Raised IncompleteReadError).
Proof.
  split; [vm_compute; reflexivity|]. split; [vm_compute; discriminate|].
  split; vm_compute; reflexivity.
Qed.


(** C9: when the percent-decoded form of a fragment holds two or more [=],
    the fragment is accepted, and what is captured under its key is the
    text between the first [=] and the second: the rest is dropped.  The
    split sees the decoded text, so an encoded [=] counts. *)
Theorem value_between_first_and_second_equals (check : str -> bool)
    (self : UrlFragmentFetchServer) (c : Connection)
    (before after : list str) (frag k v rest : str) :
  is_post c = true ->
  returned_fragments check (post_data c) = Ok (before ++ frag :: after) ->
  decoded_fragment frag = k ++ c_eq :: v ++ c_eq :: rest ->
  ~ In c_eq k ->
  ~ In c_eq v ->
  Forall (fun f => In c_eq (decoded_fragment f)) (before ++ after) ->
  Forall (fun f => nth_error (fragment_pair f) 0 <> Some k) after ->
  exists final,
    parse_success final self c (__handle_connection check self c)
    /\ dict_get k final = Some v.
Proof.
  intros Hpost Hfr Hdec Hk Hv Hothers Hlater.
  exists (dict_of_items (fragment_items (before ++ frag :: after))). split.
  - apply post_succeeds; [assumption|].
    apply (final_data_pairs check _ _ Hfr).
    apply Forall_app in Hothers as [Hb Ha].
    apply Forall_app. split; [assumption|]. constructor; [|assumption].
    rewrite Hdec. apply in_or_app. right. now left.
  - rewrite dict_get_of_items, fragment_items_app, last_value_app.
    change (frag :: after) with ([frag] ++ after).
    rewrite fragment_items_app, last_value_app.
    rewrite (last_value_absent k (fragment_items after))
      by now apply fragment_items_keys.
    unfold fragment_items at 1. cbn [flat_map].
    rewrite (fragment_item_between frag k v rest Hdec Hk Hv).
    cbn. now rewrite str_eqb_refl.
Qed.

Lemma value_between_first_and_second_equals_witness :
  exists final,
    parse_success final example_server
      (connection (post_request
         (local_url ++ bytes_lit "#state=x&token=abc%3D%3D&scope=y")))
      (__handle_connection any_netloc example_server
         (connection (post_request
            (local_url ++ bytes_lit "#state=x&token=abc%3D%3D&scope=y"))))
    /\ dict_get (str_lit "token") final = Some (str_lit "abc").
Proof.
  apply (value_between_first_and_second_equals any_netloc example_server _
           [str_lit "state=x"] [str_lit "scope=y"] (str_lit "token=abc%3D%3D")
           (str_lit "token") (str_lit "abc") (str_lit "=")).
  - vm_compute. reflexivity.
  - vm_compute. reflexivity.
  - vm_compute. reflexivity.
  - vm_compute. intuition discriminate.
  - vm_compute. intuition discriminate.
  - repeat constructor; vm_compute; intuition discriminate.
  - repeat constructor. vm_compute. discriminate.
Defined.

(** C10: for every POST whose body, the last piece of the split on the
    blank line, is empty, the handler takes the failure branch: the
    captured data is exactly what it was (the dictionary is built aside and
    assigned only once every pair is in), the failure message is set, the
    [200 OK] answer carries the failure text, and [_keep_running] is false
    when the handler returns. *)
Theorem empty_body_rejected (check : str -> bool) (self : UrlFragmentFetchServer)
    (c : Connection) :
  is_post c = true ->
  post_body c = [] ->
  parse_failure self c (__handle_connection check self c).
Proof.
  intros Hpost Hbody.
  destruct (final_data_without_hash check (post_data c)) as [e He].
  - fold (post_body c). rewrite Hbody. auto.
  - now apply (post_fails check self c e).
Qed.

Lemma empty_body_rejected_witness :
  parse_failure example_server (connection (post_request []))
    (__handle_connection any_netloc example_server (connection (post_request []))).
Proof.
  apply (empty_body_rejected any_netloc example_server).
  - vm_compute. reflexivity.
  - vm_compute. reflexivity.
Defined.

(** * Further properties of the handler and of the parsing block *)

Section HandlerOutcomes.
Variable check : str -> bool.

(** X1: every POST is answered and ends the session, whatever its body:
    the handler returns (it never raises), and either the body was parsed
    and the outcome is that of a success, or parsing raised and the outcome
    is that of a failure. *)
Theorem post_always_answered (self : UrlFragmentFetchServer) (c : Connection) :
  is_post c = true ->
  (exists final,
      final_data check (post_data c) = Ok final
      /\ parse_success final self c (__handle_connection check self c))
  \/ (exists e,
        final_data check (post_data c) = Raise e
        /\ parse_failure self c (__handle_connection check self c)).
Proof.
  intros Hp. destruct (final_data check (post_data c)) as [final|e] eqn:E.
  - left. exists final. split; [reflexivity|]. now apply post_succeeds.
  - right. exists e. split; [reflexivity|]. now apply (post_fails check self c e).
Qed.

(** X2: when the handler raises, it has written nothing and closed nothing,
    and it leaves the session as it found it but for the activity flag,
    which stays up. *)
Theorem raise_leaves_flag_up (self : UrlFragmentFetchServer) (c : Connection)
    (e : exn) :
  snd (__handle_connection check self c) = Raised e ->
  fst (fst (__handle_connection check self c)) = set_connected true self
  /\ writer (snd (fst (__handle_connection check self c))) = writer c.
Proof.
  unfold __handle_connection. rewrite run_handler_S.
  change (handler_step check self c Entry) with (set_connected true self, c, AtReadline).
  cbn [fst snd]. rewrite run_handler_S.
  destruct (request_line c) as [text|e'] eqn:Hl.
  - rewrite (request_line_step _ _ _ _ Hl). cbn [fst snd].
    destruct (startswith N.eqb (str_lit "GET") text);
      [|destruct (startswith N.eqb (str_lit "POST") text)].
    + rewrite run_handler_S. cbn [handler_step].
      destruct (readuntil CRLF (reader (after_request_line c))) as [[line|e''] rd];
        cbn; [discriminate | auto].
    + rewrite run_handler_S. cbn [handler_step].
      destruct (read 4096 (reader (after_request_line c))) as [received rd].
      destruct (final_data check received); cbn; discriminate.
    + cbn. discriminate.
  - revert Hl. unfold request_line. cbn [handler_step].
    destruct (readline (reader c)) as [[line|e''] rd]; cbn [fst bind].
    + intros ->. cbn. auto.
    + intros _. cbn. auto.
Qed.
End HandlerOutcomes.

Lemma post_always_answered_witness :
  (exists final,
      final_data any_netloc
        (post_data (connection (post_request (local_url ++ bytes_lit "#a=b"))))
      = Ok final
      /\ parse_success final example_server
           (connection (post_request (local_url ++ bytes_lit "#a=b")))
           (__handle_connection any_netloc example_server
              (connection (post_request (local_url ++ bytes_lit "#a=b")))))
  \/ (exists e,
        final_data any_netloc
          (post_data (connection (post_request (local_url ++ bytes_lit "#a=b"))))
        = Raise e
        /\ parse_failure example_server
             (connection (post_request (local_url ++ bytes_lit "#a=b")))
             (__handle_connection any_netloc example_server
                (connection (post_request (local_url ++ bytes_lit "#a=b"))))).
Proof.
  apply (post_always_answered any_netloc example_server). vm_compute. reflexivity.
Defined.

Lemma raise_leaves_flag_up_witness :
  fst (fst (__handle_connection any_netloc example_server
              (connection (bytes_lit "GET / HTTP/1.0" ++ [LF]))))
  = set_connected true example_server
  /\ writer (snd (fst (__handle_connection any_netloc example_server
                         (connection (bytes_lit "GET / HTTP/1.0" ++ [LF])))))
     = writer (connection (bytes_lit "GET / HTTP/1.0" ++ [LF])).
Proof.
  apply (raise_leaves_flag_up any_netloc example_server _ IncompleteReadError).
  vm_compute. reflexivity.
Defined.

(** ** What a successful parse can capture *)

Lemma split_pieces (A : Type) (eqb : A -> A -> bool) (sep : A) (l : list A) :
  (forall a b, eqb a b = true <-> a = b) ->
  Forall (fun p => ~ In sep p) (split eqb sep l).
Proof.
  intros Heq. induction l as [|c t IH]; cbn.
  - constructor; [auto | constructor].
  - destruct (eqb c sep) eqn:E.
    + constructor; [auto | exact IH].
    + destruct (split eqb sep t) as [|h r]; cbn.
      * repeat constructor. intros [->|[]].
        rewrite (proj2 (Heq sep sep) eq_refl) in E. discriminate.
      * inversion IH as [|? ? Hh Hr]; subst. constructor; [|assumption].
        intros [->|H]; [|contradiction].
        rewrite (proj2 (Heq sep sep) eq_refl) in E. discriminate.
Qed.

Lemma fragment_item_no_equals (frag k v : str) :
  fragment_item frag = Some (k, v) -> ~ In c_eq k /\ ~ In c_eq v.
Proof.
  unfold fragment_item.
  destruct (nth_error (fragment_pair frag) 1) as [v'|] eqn:E1; [|discriminate].
  destruct (nth_error (fragment_pair frag) 0) as [k'|] eqn:E0; [|discriminate].
  intros [= <- <-].
  pose proof (split_pieces N N.eqb c_eq (decoded_fragment frag) N.eqb_eq) as H.
  rewrite Forall_forall in H. fold (fragment_pair frag) in H.
  split; apply H; eapply nth_error_In; eassumption.
Qed.

Lemma dict_set_not_nil (k v : str) (d : dict) : dict_set k v d <> [].
Proof. destruct d as [|[k' v'] r]; cbn; [|destruct (str_eqb k k')]; discriminate. Qed.

Lemma for_fragment_no_equals (fragments : list str) (d final : dict) :
  Forall (fun kv => ~ In c_eq (fst kv) /\ ~ In c_eq (snd kv)) d ->
  for_fragment fragments d = Ok final ->
  Forall (fun kv => ~ In c_eq (fst kv) /\ ~ In c_eq (snd kv)) final.
Proof.
  revert d. induction fragments as [|frag rest IH]; intros d Hd.
  - now intros [= <-].
  - rewrite for_fragment_cons.
    destruct (fragment_item frag) as [[k v]|] eqn:E; [|discriminate].
    apply IH. destruct (fragment_item_no_equals _ _ _ E) as [Hk Hv].
    clear - Hd Hk Hv. induction Hd as [|[k' v'] r Hh Hr IHd]; cbn.
    + repeat constructor; assumption.
    + destruct (str_eqb k k') eqn:Ek; constructor; auto.
      cbn in *. split; [tauto | assumption].
Qed.

Lemma for_fragment_grows (fragments : list str) (d final : dict) :
  d <> [] -> for_fragment fragments d = Ok final -> final <> [].
Proof.
  revert d. induction fragments as [|frag rest IH]; intros d Hd.
  - now intros [= <-].
  - rewrite for_fragment_cons.
    destruct (fragment_item frag) as [[k v]|]; [|discriminate].
    apply IH, dict_set_not_nil.
Qed.

Section CapturedData.
Variable check : str -> bool.

(** X3: what a successful parse captures is never the empty dictionary, and
    no key and no value of it holds an [=]: whatever follows a second [=]
    in a fragment is lost, and a fragment without one is an error. *)
Theorem captured_data_shape (received : bytes) (final : dict) :
  final_data check received = Ok final ->
  final <> []
  /\ Forall (fun kv => ~ In c_eq (fst kv) /\ ~ In c_eq (snd kv)) final.
Proof.
  unfold final_data.
  destruct (returned_fragments check received) as [fragments|] eqn:E; cbn;
    [|discriminate].
  apply returned_fragments_Ok in E.
  destruct fragments as [|frag rest].
  { exfalso. symmetry in E. revert E. apply split_not_nil. }
  intros H. split.
  - revert H. rewrite for_fragment_cons.
    destruct (fragment_item frag) as [[k v]|]; [|discriminate].
    apply for_fragment_grows, dict_set_not_nil.
  - revert H. apply for_fragment_no_equals. constructor.
Qed.
End CapturedData.

Lemma captured_data_shape_witness :
  [(str_lit "a", str_lit "b")] <> []
  /\ Forall (fun kv => ~ In c_eq (fst kv) /\ ~ In c_eq (snd kv))
            [(str_lit "a", str_lit "b")].
Proof.
  apply (captured_data_shape any_netloc
           (post_data (connection (post_request (local_url ++ bytes_lit "#a=b=c"))))).
  vm_compute. reflexivity.
Defined.

(** ** Which mappings make the round trip *)

Lemma fragment_item_quoted (kv : str * str) (p : bytes) :
  no_equals_item kv -> quote_item kv = Ok p -> fragment_item (map ord p) = Some kv.
Proof.
  destruct kv as [k v]. intros [Hk Hv] H.
  apply decoded_quote_item in H as (E & _).
  now apply fragment_item_exact.
Qed.

Section RoundTripExactly.
Variable check : str -> bool.

Lemma final_data_of_quoted (received prefix frag : bytes) (items : list (str * str)) :
  items <> [] ->
  Forall no_equals_item items ->
  encode_fragment items = Ok frag ->
  url_before_fragment prefix ->
  accepted_url check (prefix ++ x23 :: frag) ->
  last_item (split_seq Byte.eqb CRLFCRLF 0 received) = prefix ++ x23 :: frag ->
  final_data check received = Ok (dict_of_items items).
Proof.
  intros Hne Hplain Henc Hpre Hacc Hbody.
  destruct (encode_fragment_pieces _ _ Hne Henc) as (Cf & pieces & Hq & Hs).
  unfold final_data.
  rewrite returned_fragments_accepted; rewrite Hbody; [|assumption].
  rewrite (fragment_of_url _ _ Hpre Cf), Hs. cbn [bind].
  apply for_fragment_items.
  clear - Hq Hplain. induction Hq as [|kv p items' pieces' Hp _ IH]; cbn;
    constructor.
  - apply fragment_item_quoted; [now inversion Hplain | assumption].
  - apply IH. now inversion Hplain.
Qed.

(** X4: for a non-empty mapping with distinct keys, posted percent-encoded
    after the [#] of an accepted URL, the parse returns the mapping itself
    exactly when no key and no value holds a raw [=].  A raw [&] does no
    harm: it is split on before the decoding and so never seen. *)
Theorem round_trip_iff_no_equals (c : Connection) (items : list (str * str))
    (prefix frag : bytes) :
  items <> [] ->
  NoDup (map fst items) ->
  encode_fragment items = Ok frag ->
  url_before_fragment prefix ->
  accepted_url check (prefix ++ x23 :: frag) ->
  post_body c = prefix ++ x23 :: frag ->
  (final_data check (post_data c) = Ok items <-> Forall no_equals_item items).
Proof.
  intros Hne Hnd Henc Hpre Hacc Hbody. split.
  - intros H. now apply (captured_data_shape check (post_data c)).
  - intros H.
    replace (Ok items) with (Ok (dict_of_items items))
      by (now rewrite dict_of_items_NoDup).
    now apply (final_data_of_quoted (post_data c) prefix frag).
Qed.
End RoundTripExactly.

Lemma round_trip_iff_no_equals_witness :
  final_data any_netloc
    (post_data (connection (post_request (local_url ++ bytes_lit "#q=a%26b&r=%23"))))
  = Ok [(str_lit "q", str_lit "a&b"); (str_lit "r", str_lit "#")]
  <-> Forall no_equals_item [(str_lit "q", str_lit "a&b"); (str_lit "r", str_lit "#")].
Proof.
  apply (round_trip_iff_no_equals any_netloc
           (connection (post_request (local_url ++ bytes_lit "#q=a%26b&r=%23")))
           [(str_lit "q", str_lit "a&b"); (str_lit "r", str_lit "#")]
           local_url (bytes_lit "q=a%26b&r=%23")).
  - discriminate.
  - repeat constructor; vm_compute; intuition discriminate.
  - vm_compute. reflexivity.
  - vm_compute. intuition discriminate.
  - eexists. vm_compute. reflexivity.
  - vm_compute. reflexivity.
Defined.

(** ** Where the body starts (line 137) *)

Lemma startswith_bytes (p l : bytes) :
  startswith Byte.eqb p l = true <-> exists r, l = p ++ r.
Proof.
  revert l. induction p as [|a p IH]; intros l; cbn.
  - split; [intros _; now exists l | reflexivity].
  - destruct l as [|c l]; [split; [discriminate | intros [r [=]]]|].
    rewrite andb_true_iff, IH. split.
    + intros [E [r ->]]. apply Byte.byte_dec_bl in E. subst. now exists r.
    + intros [r [= <- ->]]. split; [now apply Byte.byte_dec_lb | now exists r].
Qed.

Lemma split_seq_without_CR (u : bytes) :
  ~ In CR u -> split_seq Byte.eqb CRLFCRLF 0 u = [u].
Proof.
  induction u as [|c t IH]; intros H; [reflexivity|].
  cbn [split_seq].
  destruct (startswith Byte.eqb CRLFCRLF (c :: t)) eqn:E.
  - apply startswith_bytes in E as [r [= -> _]]. exfalso. apply H. now left.
  - rewrite IH; [reflexivity|]. intros H'. apply H. now right.
Qed.

Lemma cons_head_app (A : Type) (c : A) (parts : list (list A)) (u : list A) :
  parts <> [] -> cons_head c (parts ++ [u]) = cons_head c parts ++ [u].
Proof. destruct parts; [contradiction | reflexivity]. Qed.

Lemma cons_head_not_nil (A : Type) (c : A) (parts : list (list A)) :
  cons_head c parts <> [].
Proof. destruct parts; discriminate. Qed.

Lemma header_block_tail (c : byte) (t : bytes) :
  header_block (c :: t) -> header_block t.
Proof.
  intros H p. destruct (H (c :: p)) as [H1 H2].
  split; intros ->; [now apply H1 | now apply H2].
Qed.

(** A text is a header block when its last octet is no CR and its last two
    are not CR LF. *)
Lemma header_block_rev (h : bytes) :
  match rev h with
  | c :: d :: _ => c <> CR /\ (c = LF -> d <> CR)
  | [c] => c <> CR
  | [] => True
  end ->
  header_block h.
Proof.
  intros H p. split; intros ->; rewrite rev_app_distr in H; cbn in H.
  - destruct (rev p); [now apply H | now apply (proj1 H)].
  - now apply (proj2 H).
Qed.

(** After a header block and the blank line, a body that holds no CR is
    the last piece of the split, whatever blank lines the block holds. *)
Lemma split_seq_header_block (n : nat) (h u : bytes) :
  List.length h <= n ->
  header_block h ->
  ~ In CR u ->
  exists parts,
    parts <> []
    /\ split_seq Byte.eqb CRLFCRLF 0 (h ++ CRLFCRLF ++ u) = parts ++ [u].
Proof.
  revert h. induction n as [|n IH]; intros h Hlen Hh Hu.
  - destruct h; [|cbn in Hlen; lia].
    exists [[]]. split; [discriminate|].
    cbn. now rewrite split_seq_without_CR.
  - destruct h as [|c t].
    { exists [[]]. split; [discriminate|]. cbn. now rewrite split_seq_without_CR. }
    cbn [app split_seq].
    destruct (startswith Byte.eqb CRLFCRLF (c :: t ++ CRLFCRLF ++ u)) eqn:E.
    + apply startswith_bytes in E as [r E].
      destruct t as [|x [|y [|z t']]]; cbn in E.
      * injection E as -> _. destruct (Hh []) as [Ha _]. now contradiction Ha.
      * injection E as -> -> _. destruct (Hh []) as [_ Hb]. now contradiction Hb.
      * injection E as -> -> -> _. destruct (Hh [CR; LF]) as [Ha _].
        now contradiction Ha.
      * injection E as -> -> -> -> _.
        destruct (IH t') as (parts & Hne & Hs).
        -- cbn in Hlen. lia.
        -- do 4 apply header_block_tail in Hh. exact Hh.
        -- assumption.
        -- exists ([] :: parts). split; [discriminate|].
           cbn. cbn in Hs. now rewrite Hs.
    + destruct (IH t) as (parts & Hne & Hs).
      * cbn in Hlen. lia.
      * now apply header_block_tail in Hh.
      * assumption.
      * exists (cons_head c parts). split; [apply cons_head_not_nil|].
        rewrite Hs. now apply cons_head_app.
Qed.

(** X5: when what the handler reads is a header block, a blank line and a
    body without a carriage return, the text handed to [urlparse] is that
    body, even if the header block holds blank lines of its own. *)
Theorem body_after_blank_line (c : Connection) (h u : bytes) :
  post_data c = h ++ CRLFCRLF ++ u ->
  header_block h ->
  ~ In CR u ->
  post_body c = u.
Proof.
  intros Hd Hh Hu. unfold post_body. rewrite Hd.
  destruct (split_seq_header_block (List.length h) h u (le_n _) Hh Hu)
    as (parts & _ & ->).
  unfold last_item. apply last_last.
Qed.

Lemma body_after_blank_line_witness :
  post_body (connection (post_request (local_url ++ bytes_lit "#a=b")))
  = local_url ++ bytes_lit "#a=b".
Proof.
  apply (body_after_blank_line _
           (bytes_lit "Host: localhost:1000" ++ CRLF
            ++ bytes_lit "Content-Type: application/x-www-form-urlencoded")).
  - vm_compute. reflexivity.
  - apply header_block_rev. vm_compute. split; [discriminate | intros [=]].
  - vm_compute. intuition discriminate.
Defined.

(** ** How much of a POST is looked at (line 130) *)

Lemma cut_seq_LF_app (l extra before after : bytes) :
  cut_seq [LF] l = Some (before, after) ->
  cut_seq [LF] (l ++ extra) = Some (before, after ++ extra).
Proof.
  revert before. induction l as [|c t IH]; intros before; [discriminate|].
  cbn [cut_seq app startswith].
  destruct (Byte.eqb LF c && true).
  - now intros [= <- <-].
  - destruct (cut_seq [LF] t) as [[b a]|]; [|discriminate].
    intros [= <- <-]. now rewrite (IH b eq_refl).
Qed.

Section ReadBound.
Variable check : str -> bool.

Lemma post_depends_on_data (self : UrlFragmentFetchServer) (c1 c2 : Connection) :
  is_post c1 = true ->
  is_post c2 = true ->
  post_data c1 = post_data c2 ->
  writer c1 = writer c2 ->
  fst (fst (__handle_connection check self c1))
  = fst (fst (__handle_connection check self c2))
  /\ writer (snd (fst (__handle_connection check self c1)))
     = writer (snd (fst (__handle_connection check self c2))).
Proof.
  intros H1 H2 Hd Hw.
  rewrite (handle_post check self c1 H1), (handle_post check self c2 H2).
  unfold post_data in Hd. cbn [run_handler]. cbn [handler_step].
  destruct (read 4096 (reader (after_request_line c1))) as [r1 rd1].
  destruct (read 4096 (reader (after_request_line c2))) as [r2 rd2].
  cbn [fst] in Hd. subst r2.
  change (writer (after_request_line c1)) with (writer c1).
  change (writer (after_request_line c2)) with (writer c2). rewrite Hw.
  destruct (final_data check r1); cbn; auto.
Qed.

(** X6: of a POST the handler looks at the request line and at no more
    than the 4096 octets after it: when that many have been sent, whatever
    the peer sends further changes neither the session nor the answer. *)
Theorem only_first_4096 (self : UrlFragmentFetchServer) (c : Connection)
    (extra before after : bytes) :
  is_post c = true ->
  cut_seq [LF] (buffer (reader c)) = Some (before, after) ->
  4096 <= List.length after ->
  fst (fst (__handle_connection check self (followed_by extra c)))
  = fst (fst (__handle_connection check self c))
  /\ writer (snd (fst (__handle_connection check self (followed_by extra c))))
     = writer (snd (fst (__handle_connection check self c))).
Proof.
  intros Hp Hcut Hlen.
  assert (Hline : readline (reader (followed_by extra c))
                  = (fst (readline (reader c)),
                     {| buffer := after ++ extra; chunk := chunk (reader c) |})
                  /\ snd (readline (reader c))
                     = {| buffer := after; chunk := chunk (reader c) |}).
  { unfold readline, readuntil_outcome, followed_by. cbn [reader buffer chunk].
    rewrite (cut_seq_LF_app _ extra _ _ Hcut), Hcut.
    destruct (limit <? N.of_nat (List.length before))%N eqn:El.
    - exfalso. revert Hp. unfold is_post, request_line, readline, readuntil_outcome.
      now rewrite Hcut, El.
    - cbn. auto. }
  destruct Hline as [Hl1 Hl2].
  assert (Hreq : request_line (followed_by extra c) = request_line c)
    by (unfold request_line; now rewrite Hl1).
  assert (Hk : Nat.min 4096 (Nat.max 1 (chunk (reader c))) <= List.length after)
    by lia.
  apply post_depends_on_data.
  - unfold is_post. now rewrite Hreq.
  - assumption.
  - unfold post_data, after_request_line, read. rewrite Hl1, Hl2.
    cbn [fst snd reader buffer chunk].
    rewrite firstn_app.
    replace (_ - List.length after) with 0 by lia.
    cbn [firstn]. now rewrite app_nil_r.
  - reflexivity.
Qed.
End ReadBound.

Lemma only_first_4096_witness :
  fst (fst (__handle_connection any_netloc example_server
              (followed_by (bytes_lit "&more=1")
                 (connection (post_request
                    (local_url ++ bytes_lit "#a=" ++ repeat x62 4096))))))
  = fst (fst (__handle_connection any_netloc example_server
                (connection (post_request
                   (local_url ++ bytes_lit "#a=" ++ repeat x62 4096)))))
  /\ writer (snd (fst (__handle_connection any_netloc example_server
              (followed_by (bytes_lit "&more=1")
                 (connection (post_request
                    (local_url ++ bytes_lit "#a=" ++ repeat x62 4096)))))))
     = writer (snd (fst (__handle_connection any_netloc example_server
                (connection (post_request
                   (local_url ++ bytes_lit "#a=" ++ repeat x62 4096)))))).
Proof.
  apply (only_first_4096 any_netloc example_server _ (bytes_lit "&more=1")
           (bytes_lit "POST / HTTP/1.1" ++ [CR])
           (bytes_lit "Host: localhost:1000" ++ CRLF
            ++ bytes_lit "Content-Type: application/x-www-form-urlencoded" ++ CRLF
            ++ CRLF ++ local_url ++ bytes_lit "#a=" ++ repeat x62 4096)).
  - vm_compute. reflexivity.
  - vm_compute. reflexivity.
  - vm_compute. apply Nat.leb_le. vm_compute. reflexivity.
Defined.

(** * Further properties of the event loop *)

Lemma set_nth_Forall (A : Type) (P : A -> Prop) (i : nat) (x : A) (l : list A) :
  Forall P l -> P x -> Forall P (set_nth i x l).
Proof.
  intros Hl Hx. revert i.
  induction Hl as [|h t Hh Ht IH]; intros [|i]; cbn; constructor; auto.
Qed.

Lemma nth_error_Forall (A : Type) (P : A -> Prop) (i : nat) (x : A) (l : list A) :
  Forall P l -> nth_error l i = Some x -> P x.
Proof.
  intros Hl Hx. rewrite Forall_forall in Hl. eapply Hl, nth_error_In, Hx.
Qed.

(** ** The session under the timeout coroutine *)

Lemma timed_out_twice (self : UrlFragmentFetchServer) :
  timed_out (timed_out self) = timed_out self.
Proof. reflexivity. Qed.

Lemma after_wakes_fields (nows : list Z) (self : UrlFragmentFetchServer) :
  _connected (after_wakes nows self) = _connected self
  /\ _server (after_wakes nows self) = _server self
  /\ data (after_wakes nows self) = data self
  /\ _timeout_time (after_wakes nows self) = _timeout_time self.
Proof. unfold after_wakes. destruct (deadline_seen self nows); cbn; auto. Qed.

Lemma after_wakes_msg (nows : list Z) (self : UrlFragmentFetchServer) :
  msg (after_wakes nows self)
  = if deadline_seen self nows then Some msg_timeout else msg self.
Proof. unfold after_wakes. now destruct (deadline_seen self nows). Qed.

Lemma after_wakes_cons (now : Z) (nows : list Z) (self : UrlFragmentFetchServer) :
  after_wakes (now :: nows) self
  = after_wakes nows
      (if (_timeout_time self <=? now)%Z then timed_out self else self).
Proof.
  unfold after_wakes, deadline_seen. cbn [existsb].
  destruct (_timeout_time self <=? now)%Z; cbn [orb]; [|reflexivity].
  now destruct (existsb _ nows).
Qed.

Lemma deadline_not_seen (self : UrlFragmentFetchServer) (nows : list Z) :
  Forall (fun t => (t < _timeout_time self)%Z) nows ->
  deadline_seen self nows = false.
Proof.
  unfold deadline_seen. induction 1 as [|t r Ht _ IH]; cbn; [reflexivity|].
  rewrite IH, orb_false_r. apply Z.leb_gt. exact Ht.
Qed.

Section LoopRuns.
Variable check : str -> bool.

Lemma run_loop_cons (ev : event) (evs : list event) (l : Loop) :
  run_loop check (ev :: evs) l = run_loop check evs (loop_step check l ev).
Proof. reflexivity. Qed.

Lemma run_loop_closed (evs : list event) (l : Loop) :
  serving l = false -> run_loop check evs l = l.
Proof.
  intros H. induction evs as [|ev evs IH]; [reflexivity|].
  now rewrite run_loop_cons, loop_step_closed.
Qed.

(** *** One step of the loop, event by event *)

Lemma step_wake_created (self : UrlFragmentFetchServer) (srv : Server)
    (hs : list (Connection * handler_pc)) (now : Z) :
  _server self = Some srv -> is_serving srv = true ->
  _keep_running self || _connected self = true ->
  loop_step check {| server_self := self; guard := GuardCreated; handlers := hs |}
    (Wake now)
  = {| server_self := self; guard := GuardSleeping; handlers := hs |}.
Proof.
  intros Hs Hv Hk. unfold loop_step, serving. cbn [server_self guard handlers].
  rewrite Hs, Hv. cbn [negb __time_out_shutdown]. unfold guard_test.
  now rewrite Hk.
Qed.

Lemma step_wake_busy (self : UrlFragmentFetchServer) (srv : Server)
    (hs : list (Connection * handler_pc)) (now : Z) :
  _server self = Some srv -> is_serving srv = true ->
  _connected self = true ->
  loop_step check {| server_self := self; guard := GuardSleeping; handlers := hs |}
    (Wake now)
  = {| server_self := if (_timeout_time self <=? now)%Z then timed_out self else self;
       guard := GuardSleeping; handlers := hs |}.
Proof.
  intros Hs Hv Hc. unfold loop_step, serving. cbn [server_self guard handlers].
  rewrite Hs, Hv. cbn [negb __time_out_shutdown].
  destruct (_timeout_time self <=? now)%Z; unfold guard_test; cbn;
    now rewrite Hc, ?orb_true_r.
Qed.

Lemma step_wake_early (self : UrlFragmentFetchServer) (srv : Server)
    (hs : list (Connection * handler_pc)) (now : Z) :
  _server self = Some srv -> is_serving srv = true ->
  _keep_running self = true ->
  (_timeout_time self <=? now)%Z = false ->
  loop_step check {| server_self := self; guard := GuardSleeping; handlers := hs |}
    (Wake now)
  = {| server_self := self; guard := GuardSleeping; handlers := hs |}.
Proof.
  intros Hs Hv Hk Ht. unfold loop_step, serving. cbn [server_self guard handlers].
  rewrite Hs, Hv. cbn [negb __time_out_shutdown]. rewrite Ht.
  unfold guard_test. now rewrite Hk.
Qed.

Lemma step_wake_late (self : UrlFragmentFetchServer) (srv : Server)
    (hs : list (Connection * handler_pc)) (now : Z) :
  _server self = Some srv -> is_serving srv = true ->
  _connected self = false ->
  (_timeout_time self <=? now)%Z = true ->
  loop_step check {| server_self := self; guard := GuardSleeping; handlers := hs |}
    (Wake now)
  = {| server_self := set_server (Some (server_close srv)) (timed_out self);
       guard := GuardClosed; handlers := hs |}.
Proof.
  intros Hs Hv Hc Ht. unfold loop_step, serving. cbn [server_self guard handlers].
  rewrite Hs, Hv. cbn [negb __time_out_shutdown]. rewrite Ht.
  unfold guard_test. cbn. now rewrite Hc, Hs.
Qed.

Lemma step_wake_done (self : UrlFragmentFetchServer) (srv : Server)
    (hs : list (Connection * handler_pc)) (now : Z) :
  _server self = Some srv -> is_serving srv = true ->
  _connected self = false ->
  _keep_running self = false ->
  loop_step check {| server_self := self; guard := GuardSleeping; handlers := hs |}
    (Wake now)
  = {| server_self :=
         set_server (Some (server_close srv))
           (if (_timeout_time self <=? now)%Z then timed_out self else self);
       guard := GuardClosed; handlers := hs |}.
Proof.
  intros Hs Hv Hc Hk. unfold loop_step, serving. cbn [server_self guard handlers].
  rewrite Hs, Hv. cbn [negb __time_out_shutdown].
  destruct (_timeout_time self <=? now)%Z; unfold guard_test; cbn;
    now rewrite ?Hk, Hc, Hs.
Qed.

Lemma step_accept (self : UrlFragmentFetchServer) (srv : Server) (g : guard_pc)
    (hs : list (Connection * handler_pc)) (c : Connection) :
  _server self = Some srv -> is_serving srv = true ->
  loop_step check {| server_self := self; guard := g; handlers := hs |} (Accept c)
  = {| server_self := self; guard := g; handlers := hs ++ [(c, Entry)] |}.
Proof.
  intros Hs Hv. unfold loop_step, serving. cbn [server_self guard handlers].
  now rewrite Hs, Hv.
Qed.

Lemma step_resume (self : UrlFragmentFetchServer) (srv : Server) (g : guard_pc)
    (hs : list (Connection * handler_pc)) (i : nat) (c : Connection)
    (pc : handler_pc) :
  _server self = Some srv -> is_serving srv = true ->
  nth_error hs i = Some (c, pc) ->
  loop_step check {| server_self := self; guard := g; handlers := hs |} (Resume i)
  = {| server_self := fst (fst (handler_step check self c pc)); guard := g;
       handlers := set_nth i (snd (fst (handler_step check self c pc)),
                              snd (handler_step check self c pc)) hs |}.
Proof.
  intros Hs Hv Hn. unfold loop_step, serving. cbn [server_self guard handlers].
  rewrite Hs, Hv, Hn. cbn [negb].
  now destruct (handler_step check self c pc) as [[self' c'] pc'].
Qed.

(** *** Runs of wake-ups *)

(** While a connection is active the timeout coroutine goes back to sleep,
    whatever the clock reads. *)
Lemma wakes_while_busy (nows : list Z) (self : UrlFragmentFetchServer)
    (srv : Server) (hs : list (Connection * handler_pc)) :
  _server self = Some srv -> is_serving srv = true ->
  _connected self = true ->
  run_loop check (map Wake nows)
    {| server_self := self; guard := GuardSleeping; handlers := hs |}
  = {| server_self := after_wakes nows self; guard := GuardSleeping;
       handlers := hs |}.
Proof.
  revert self. induction nows as [|now nows IH]; intros self Hs Hv Hc.
  - reflexivity.
  - cbn [map]. rewrite run_loop_cons, (step_wake_busy self srv) by assumption.
    rewrite after_wakes_cons.
    apply IH; try assumption; destruct (_timeout_time self <=? now)%Z; assumption.
Qed.

(** With no connection active and no shutdown asked for, the first wake-up
    that finds the deadline passed closes the server. *)
Lemma wakes_while_idle (nows : list Z) (self : UrlFragmentFetchServer)
    (srv : Server) (hs : list (Connection * handler_pc)) :
  _server self = Some srv -> is_serving srv = true ->
  _connected self = false ->
  _keep_running self = true ->
  run_loop check (map Wake nows)
    {| server_self := self; guard := GuardSleeping; handlers := hs |}
  = if deadline_seen self nows
    then {| server_self := set_server (Some (server_close srv)) (timed_out self);
            guard := GuardClosed; handlers := hs |}
    else {| server_self := self; guard := GuardSleeping; handlers := hs |}.
Proof.
  intros Hs Hv Hc Hk. induction nows as [|now nows IH].
  - reflexivity.
  - cbn [map]. rewrite run_loop_cons. unfold deadline_seen. cbn [existsb].
    destruct (_timeout_time self <=? now)%Z eqn:Ht; cbn [orb].
    + rewrite (step_wake_late self srv) by assumption.
      now rewrite run_loop_closed.
    + rewrite (step_wake_early self srv) by assumption. exact IH.
Qed.

(** *** The steps of a POST handler *)

Lemma post_line_step (self : UrlFragmentFetchServer) (c : Connection) :
  is_post c = true ->
  handler_step check self c AtReadline = (self, after_request_line c, AtRead).
Proof.
  unfold is_post. destruct (request_line c) as [text|] eqn:Hl; [|discriminate].
  intros Hp. now rewrite (request_line_step check _ _ _ Hl), Hp, (post_is_not_get _ Hp).
Qed.

Lemma post_read_step (self : UrlFragmentFetchServer) (c : Connection) :
  exists c',
    handler_step check self (after_request_line c) AtRead
    = (post_outcome check c self, c', AtPostDrain).
Proof.
  unfold post_outcome, post_data. cbn [handler_step].
  destruct (read 4096 (reader (after_request_line c))) as [received rd].
  cbn [fst]. destruct (final_data check received); eexists; reflexivity.
Qed.

Lemma post_outcome_fields (c : Connection) (self : UrlFragmentFetchServer) :
  _connected (post_outcome check c self) = _connected self
  /\ _server (post_outcome check c self) = _server self
  /\ _keep_running (post_outcome check c self) = _keep_running self
  /\ _timeout_time (post_outcome check c self) = _timeout_time self.
Proof. unfold post_outcome. destruct (final_data check (post_data c)); cbn; auto. Qed.

(** The loop at the end of the schedule of one POST exchange. *)
Lemma post_exchange_state (now timeout : Z) (port : N) (t0 : Z) (w0 : list Z)
    (c : Connection) (w1 w2 w3 : list Z) (late : Z) :
  is_post c = true ->
  Forall (fun t => (t < now + timeout)%Z) w0 ->
  exists s3 c',
    server_self (run_loop check (post_exchange t0 w0 c w1 w2 w3 late)
                   (__start_server (__init__ now timeout port)))
    = set_server (Some {| is_serving := false; close_calls := 1 |})
        (if (now + timeout <=? late)%Z
         then timed_out (set_connected false (set_keep_running false s3))
         else set_connected false (set_keep_running false s3))
    /\ handlers (run_loop check (post_exchange t0 w0 c w1 w2 w3 late)
                   (__start_server (__init__ now timeout port)))
       = [(c', Returned)]
    /\ data s3 = captured check c
    /\ msg s3 = (if existsb (fun t => (now + timeout <=? t)%Z) w3
                 then Some msg_timeout
                 else match final_data check (post_data c) with
                      | Ok _ => Some msg_success
                      | Raise _ => Some msg_failure
                      end).
Proof.
  intros Hp Hw0.
  set (srv := {| is_serving := true; close_calls := 0 |}).
  set (s0 := set_server (Some srv) (__init__ now timeout port)).
  set (s1 := after_wakes w1 (set_connected true s0)).
  set (s2 := after_wakes w2 s1).
  set (s3 := after_wakes w3 (post_outcome check c s2)).
  destruct (post_read_step s2 c) as [c3 Hread].
  exists s3, {| reader := reader c3; writer := close (writer c3) |}.
  assert (F1 : _connected s1 = true /\ _server s1 = Some srv
               /\ _timeout_time s1 = (now + timeout)%Z /\ data s1 = None).
  { subst s1. destruct (after_wakes_fields w1 (set_connected true s0))
      as (-> & -> & -> & ->). auto. }
  destruct F1 as (C1 & S1 & T1 & D1).
  assert (F2 : _connected s2 = true /\ _server s2 = Some srv
               /\ _timeout_time s2 = (now + timeout)%Z /\ data s2 = None).
  { subst s2. destruct (after_wakes_fields w2 s1) as (-> & -> & -> & ->). auto. }
  destruct F2 as (C2 & S2 & T2 & D2).
  destruct (post_outcome_fields c s2) as (C2' & S2' & _ & T2').
  rewrite C2 in C2'. rewrite S2 in S2'. rewrite T2 in T2'.
  assert (F3 : _connected s3 = true /\ _server s3 = Some srv
               /\ _timeout_time s3 = (now + timeout)%Z
               /\ data s3 = data (post_outcome check c s2)).
  { subst s3. destruct (after_wakes_fields w3 (post_outcome check c s2))
      as (-> & -> & -> & ->). auto. }
  destruct F3 as (C3 & S3 & T3 & D3).
  assert (Hrun : run_loop check (post_exchange t0 w0 c w1 w2 w3 late)
                   (__start_server (__init__ now timeout port))
                 = {| server_self :=
                        set_server (Some (server_close srv))
                          (if (now + timeout <=? late)%Z
                           then timed_out (set_connected false (set_keep_running false s3))
                           else set_connected false (set_keep_running false s3));
                      guard := GuardClosed;
                      handlers := [({| reader := reader c3; writer := close (writer c3) |},
                                    Returned)] |}).
  { unfold post_exchange.
    change (__start_server (__init__ now timeout port))
      with {| server_self := s0; guard := GuardCreated; handlers := [] |}.
    rewrite run_loop_cons, (step_wake_created s0 srv) by reflexivity.
    rewrite run_loop_app, (wakes_while_idle w0 s0 srv) by reflexivity.
    rewrite (deadline_not_seen s0 w0 Hw0).
    rewrite run_loop_app. rewrite 2 run_loop_cons.
    rewrite (step_accept s0 srv) by reflexivity. cbn [app].
    erewrite (step_resume s0 srv _ _ 0 c Entry) by reflexivity.
    cbn [handler_step fst snd set_nth]. change (run_loop check [] ?l) with l.
    rewrite run_loop_app, (wakes_while_busy w1 (set_connected true s0) srv) by reflexivity.
    fold s1.
    rewrite run_loop_cons; erewrite (step_resume s1 srv _ _ 0 c AtReadline)
      by (assumption || reflexivity).
    rewrite (post_line_step s1 c Hp). cbn [fst snd set_nth].
    rewrite run_loop_app, (wakes_while_busy w2 s1 srv) by (assumption || reflexivity).
    fold s2.
    rewrite run_loop_cons; erewrite (step_resume s2 srv _ _ 0 (after_request_line c) AtRead)
      by (assumption || reflexivity).
    rewrite Hread. cbn [fst snd set_nth].
    rewrite run_loop_app, (wakes_while_busy w3 (post_outcome check c s2) srv)
      by (assumption || reflexivity).
    fold s3.
    rewrite 2 run_loop_cons; erewrite (step_resume s3 srv _ _ 0 c3 AtPostDrain)
      by (assumption || reflexivity).
    cbn [handler_step fst snd set_nth].
    erewrite (step_wake_done _ srv) by (cbn; assumption || reflexivity).
    cbn [_timeout_time set_connected set_keep_running]. rewrite T3.
    reflexivity. }
  rewrite Hrun. cbn [server_self handlers]. repeat split.
  - rewrite D3. unfold post_outcome, captured.
    destruct (final_data check (post_data c)); cbn; [reflexivity | exact D2].
  - subst s3. rewrite after_wakes_msg. unfold deadline_seen. rewrite T2'.
    destruct (existsb _ w3); [reflexivity|].
    unfold post_outcome. now destruct (final_data check (post_data c)).
Qed.
End LoopRuns.

(** ** What a step of a handler does to the session *)

Section SessionFacts.
Variable check : str -> bool.

Lemma handler_step_session (self : UrlFragmentFetchServer) (c : Connection)
    (pc : handler_pc) :
  (snd (handler_step check self c pc) <> AtPostDrain
   /\ (fst (fst (handler_step check self c pc)) = self
       \/ exists b, fst (fst (handler_step check self c pc)) = set_connected b self))
  \/ (pc = AtRead
      /\ snd (handler_step check self c pc) = AtPostDrain
      /\ exists m, (m = msg_success \/ m = msg_failure)
           /\ (fst (fst (handler_step check self c pc)) = set_msg (Some m) self
               \/ exists d, fst (fst (handler_step check self c pc))
                            = set_msg (Some m) (set_data (Some d) self)))
  \/ (pc = AtPostDrain
      /\ fst (fst (handler_step check self c pc))
         = set_connected false (set_keep_running false self)).
Proof.
  destruct pc; cbn [handler_step].
  - left. split; [discriminate|]. right. now exists true.
  - left. destruct (readline (reader c)) as [[line|e] rd]; [|split; [discriminate | now left]].
    destruct (utf8_decode line) as [text|]; [|split; [discriminate | now left]].
    destruct (startswith N.eqb (str_lit "GET") text); [split; [discriminate | now left]|].
    destruct (startswith N.eqb (str_lit "POST") text); split; try discriminate; now left.
  - left. destruct (readuntil CRLF (reader c)) as [[line|e] rd];
      (split; [discriminate | now left]).
  - left. split; [discriminate|]. right. now exists false.
  - right. left. split; [reflexivity|].
    destruct (read 4096 (reader c)) as [received rd].
    destruct (final_data check received) as [final|e]; cbn [fst snd].
    + split; [reflexivity|]. exists msg_success. split; [now left|]. right.
      now exists final.
    + split; [reflexivity|]. exists msg_failure. split; [now right|]. now left.
  - right. right. split; reflexivity.
  - left. split; [discriminate | now left].
  - left. split; [discriminate | now left].
Qed.

(** The ways a step of the loop changes the session. *)
Lemma loop_step_session (l : Loop) (ev : event) :
  server_self (loop_step check l ev) = server_self l
  \/ (exists srv, server_self (loop_step check l ev)
                  = set_server (Some srv) (server_self l))
  \/ (exists srv, server_self (loop_step check l ev)
                  = set_server (Some srv) (timed_out (server_self l)))
  \/ server_self (loop_step check l ev) = timed_out (server_self l)
  \/ (exists b, server_self (loop_step check l ev) = set_connected b (server_self l))
  \/ (exists m, (m = msg_success \/ m = msg_failure)
        /\ (server_self (loop_step check l ev) = set_msg (Some m) (server_self l)
            \/ exists d, server_self (loop_step check l ev)
                         = set_msg (Some m) (set_data (Some d) (server_self l))))
  \/ server_self (loop_step check l ev)
     = set_connected false (set_keep_running false (server_self l)).
Proof.
  unfold loop_step. destruct (negb (serving l)); [now left|].
  destruct ev as [now|c|i].
  - unfold __time_out_shutdown. destruct (guard l); cbn; auto.
    + unfold guard_test.
      destruct (_keep_running (server_self l) || _connected (server_self l));
        [now left|].
      destruct (_server (server_self l)) as [srv|]; cbn; eauto.
    + destruct (_timeout_time (server_self l) <=? now)%Z; unfold guard_test.
      * cbn [_keep_running _connected timed_out set_keep_running set_msg orb _server].
        destruct (_connected (server_self l)); cbn; [auto 6|].
        destruct (_server (server_self l)) as [srv|]; cbn; [|auto 6].
        right. right. left. now exists (server_close srv).
      * destruct (_keep_running (server_self l) || _connected (server_self l));
          [now left|].
        destruct (_server (server_self l)) as [srv|]; cbn; eauto.
  - now left.
  - destruct (nth_error (handlers l) i) as [[c pc]|]; [|now left].
    pose proof (handler_step_session (server_self l) c pc) as H.
    destruct (handler_step check (server_self l) c pc) as [[self' c'] pc'].
    cbn [fst snd server_self] in *.
    destruct H as [(_ & [->| [b ->]])|[(_ & _ & m & Hm & H)|(_ & ->)]]; eauto 8.
    right. right. right. right. right. left. exists m. auto.
Qed.

(** X7: the deadline and the port are fixed when the object is built:
    nothing that happens while the server runs moves them. *)
Theorem deadline_and_port_fixed (now timeout : Z) (port : N) (evs : list event) :
  _timeout_time (server_self (run_loop check evs
                    (__start_server (__init__ now timeout port))))
  = (now + timeout)%Z
  /\ _port (server_self (run_loop check evs
               (__start_server (__init__ now timeout port))))
     = port.
Proof.
  assert (H : forall l,
            _timeout_time (server_self (run_loop check evs l))
            = _timeout_time (server_self l)
            /\ _port (server_self (run_loop check evs l)) = _port (server_self l)).
  { induction evs as [|ev evs IH]; intros l; [split; reflexivity|].
    rewrite run_loop_cons. destruct (IH (loop_step check l ev)) as [-> ->].
    destruct (loop_step_session l ev)
      as [->|[[srv ->]|[[srv ->]|[->|[[b ->]|[(m & _ & [->|[d ->]])| ->]]]]]];
      split; reflexivity. }
  apply (H (__start_server (__init__ now timeout port))).
Qed.

(** X8: a shutdown that has been asked for is never taken back: once
    [_keep_running] is false it stays false, whatever comes in later. *)
Theorem shutdown_request_is_final (l : Loop) (evs : list event) :
  _keep_running (server_self l) = false ->
  _keep_running (server_self (run_loop check evs l)) = false.
Proof.
  revert l. induction evs as [|ev evs IH]; intros l H; [exact H|].
  rewrite run_loop_cons. apply IH.
  destruct (loop_step_session l ev)
    as [->|[[srv ->]|[[srv ->]|[->|[[b ->]|[(m & _ & [->|[d ->]])| ->]]]]]];
    cbn; auto.
Qed.
End SessionFacts.

Lemma shutdown_request_is_final_witness :
  _keep_running
    (server_self
       (run_loop any_netloc [Resume 0; Resume 0; Resume 0]
          (run_loop any_netloc
             [Wake 0; Accept (connection get_request); Resume 0; Wake 120]
             (__start_server example_server))))
  = false.
Proof.
  apply (shutdown_request_is_final any_netloc). vm_compute. reflexivity.
Defined.

(** ** Runs of the whole server *)

Section ServerRuns.
Variable check : str -> bool.

(** X9: with no connection at all, [start()] returns exactly when the
    timeout coroutine, woken up after its first sleep, finds the clock at
    or past the deadline; it then returns [None] and the status is that of
    the timeout.  Until then nothing changes. *)
Theorem timeout_without_connection (now timeout : Z) (port : N) (t0 : Z)
    (nows : list Z) :
  start check (__init__ now timeout port) (Wake t0 :: map Wake nows)
  = (if existsb (fun t => (now + timeout <=? t)%Z) nows then Some None else None)
  /\ msg (server_self (run_loop check (Wake t0 :: map Wake nows)
                         (__start_server (__init__ now timeout port))))
     = (if existsb (fun t => (now + timeout <=? t)%Z) nows
        then Some msg_timeout else None).
Proof.
  unfold start. rewrite run_loop_cons.
  set (srv := {| is_serving := true; close_calls := 0 |}).
  set (s0 := set_server (Some srv) (__init__ now timeout port)).
  change (__start_server (__init__ now timeout port))
    with {| server_self := s0; guard := GuardCreated; handlers := [] |}.
  rewrite (step_wake_created check s0 srv) by reflexivity.
  rewrite (wakes_while_idle check nows s0 srv) by reflexivity.
  unfold deadline_seen.
  change (_timeout_time s0) with (now + timeout)%Z.
  destruct (existsb _ nows); split; reflexivity.
Qed.

(** X10: a POST ends the session with what it brought: once its handler
    has run to the end, the next wake-up of the timeout coroutine closes
    the server and [start()] returns the parsed data, or [None] when
    parsing failed, whatever the clock read during the exchange and
    whatever it reads after it. *)
Theorem post_ends_session (now timeout : Z) (port : N) (t0 : Z) (w0 : list Z)
    (c : Connection) (w1 w2 w3 : list Z) (late : Z) :
  is_post c = true ->
  Forall (fun t => (t < now + timeout)%Z) w0 ->
  start check (__init__ now timeout port) (post_exchange t0 w0 c w1 w2 w3 late)
  = Some (captured check c).
Proof.
  intros Hp Hw0. unfold start.
  destruct (post_exchange_state check now timeout port t0 w0 c w1 w2 w3 late Hp Hw0)
    as (s3 & c' & Hs & _ & Hd & _).
  unfold serving. rewrite Hs. cbn [_server set_server is_serving].
  rewrite <- Hd. now destruct (now + timeout <=? late)%Z.
Qed.

(** X11: the status after a POST is not always that of the POST.  When
    the timeout coroutine finds the deadline passed after the POST was
    parsed, between the parsing and the end of the handler or at the
    wake-up that closes the server, the status is that of the timeout,
    also when data was captured and is returned; otherwise it is that of
    the POST. *)
Theorem status_after_post (now timeout : Z) (port : N) (t0 : Z) (w0 : list Z)
    (c : Connection) (w1 w2 w3 : list Z) (late : Z) :
  is_post c = true ->
  Forall (fun t => (t < now + timeout)%Z) w0 ->
  msg (server_self (run_loop check (post_exchange t0 w0 c w1 w2 w3 late)
                      (__start_server (__init__ now timeout port))))
  = if existsb (fun t => (now + timeout <=? t)%Z) (w3 ++ [late])
    then Some msg_timeout
    else match final_data check (post_data c) with
         | Ok _ => Some msg_success
         | Raise _ => Some msg_failure
         end.
Proof.
  intros Hp Hw0.
  destruct (post_exchange_state check now timeout port t0 w0 c w1 w2 w3 late Hp Hw0)
    as (s3 & c' & Hs & _ & _ & Hm).
  rewrite Hs, existsb_app. cbn [existsb]. rewrite orb_false_r.
  destruct (now + timeout <=? late)%Z.
  - now rewrite orb_true_r.
  - rewrite orb_false_r. exact Hm.
Qed.

(** *** Without a POST *)

Lemma guard_step_session (now : Z) (self : UrlFragmentFetchServer) (pc : guard_pc) :
  data (fst (__time_out_shutdown now self pc)) = data self
  /\ ((msg (fst (__time_out_shutdown now self pc)) = msg self
       /\ _keep_running (fst (__time_out_shutdown now self pc)) = _keep_running self)
      \/ msg (fst (__time_out_shutdown now self pc)) = Some msg_timeout).
Proof.
  destruct pc; cbn [__time_out_shutdown]; [| |cbn; auto..].
  - unfold guard_test. destruct (_keep_running self || _connected self); [cbn; auto|].
    destruct (_server self); cbn; auto.
  - destruct (_timeout_time self <=? now)%Z; unfold guard_test.
    + destruct (_ || _); [cbn; auto|]. cbn [_server timed_out set_keep_running set_msg].
      destruct (_server self); cbn; auto.
    + destruct (_keep_running self || _connected self); [cbn; auto|].
      destruct (_server self); cbn; auto.
Qed.

Lemma never_posts_step (self : UrlFragmentFetchServer) (c : Connection)
    (pc : handler_pc) :
  never_posts (c, pc) ->
  never_posts (snd (fst (handler_step check self c pc)),
               snd (handler_step check self c pc))
  /\ data (fst (fst (handler_step check self c pc))) = data self
  /\ msg (fst (fst (handler_step check self c pc))) = msg self
  /\ _keep_running (fst (fst (handler_step check self c pc))) = _keep_running self.
Proof.
  unfold never_posts. cbn [fst snd]. destruct pc; cbn [handler_step]; intros H;
    try contradiction; try (cbn; now auto).
  - revert H. unfold is_post, request_line.
    destruct (readline (reader c)) as [[line|e] rd]; cbn [fst snd bind]; [|cbn; auto].
    destruct (utf8_decode line) as [text|]; [|cbn; auto].
    destruct (startswith N.eqb (str_lit "GET") text); [cbn; auto|].
    destruct (startswith N.eqb (str_lit "POST") text); [discriminate | cbn; auto].
  - destruct (readuntil CRLF (reader c)) as [[line|e] rd]; cbn; auto.
Qed.

Lemma loop_step_no_post (l : Loop) (ev : event) :
  no_post_seen l ->
  (forall c, ev = Accept c -> is_post c = false) ->
  no_post_seen (loop_step check l ev).
Proof.
  intros (Hd & Hm & Hk & Hh) Hev. unfold loop_step.
  destruct (negb (serving l)); [repeat split; assumption|].
  destruct ev as [now|c|i].
  - destruct (guard_step_session now (server_self l) (guard l)) as (Hd' & Hcase).
    destruct (__time_out_shutdown now (server_self l) (guard l)) as [self' pc'].
    cbn [fst] in *. unfold no_post_seen. cbn [server_self handlers].
    rewrite Hd'. destruct Hcase as [[-> ->]| ->]; auto.
  - unfold no_post_seen. cbn [server_self handlers]. repeat split; try assumption.
    apply Forall_app. split; [assumption|]. constructor; [|constructor].
    apply (Hev c eq_refl).
  - destruct (nth_error (handlers l) i) as [[c pc]|] eqn:Hn;
      [|repeat split; assumption].
    destruct (never_posts_step (server_self l) c pc
                (nth_error_Forall _ never_posts i (c, pc) (handlers l) Hh Hn))
      as (Hn' & Hd' & Hm' & Hk').
    destruct (handler_step check (server_self l) c pc) as [[self' c'] pc'].
    cbn [fst snd] in *. unfold no_post_seen. cbn [server_self handlers].
    rewrite Hd', Hm', Hk'. repeat split; try assumption.
    now apply set_nth_Forall.
Qed.

Lemma run_loop_no_post (evs : list event) (l : Loop) :
  no_post_seen l ->
  (forall c, In (Accept c) evs -> is_post c = false) ->
  no_post_seen (run_loop check evs l).
Proof.
  revert l. induction evs as [|ev evs IH]; intros l Hl Hev; [exact Hl|].
  rewrite run_loop_cons. apply IH.
  - apply loop_step_no_post; [assumption|]. intros c ->. apply Hev. now left.
  - intros c Hc. apply Hev. now right.
Qed.

Lemma closed_after_shutdown (l : Loop) :
  loop_invariant l -> serving l = false -> _keep_running (server_self l) = false.
Proof.
  intros (srv & Hs & [(Hv & _)|(_ & _ & _ & Hk & _)]) H; [|exact Hk].
  unfold serving in H. rewrite Hs in H. congruence.
Qed.

(** X12: when none of the connections accepted is a POST, whatever they
    are, however many and in whatever order they are served, nothing is
    captured, and the only way [start()] returns is the timeout: it returns
    [None] with the status of the timeout. *)
Theorem without_post_only_timeout (now timeout : Z) (port : N) (evs : list event) :
  (forall c, In (Accept c) evs -> is_post c = false) ->
  data (server_self (run_loop check evs
          (__start_server (__init__ now timeout port)))) = None
  /\ (start check (__init__ now timeout port) evs = None
      \/ (start check (__init__ now timeout port) evs = Some None
          /\ msg (server_self (run_loop check evs
                    (__start_server (__init__ now timeout port))))
             = Some msg_timeout)).
Proof.
  intros Hev.
  assert (H0 : no_post_seen (__start_server (__init__ now timeout port))).
  { repeat split; cbn; auto. discriminate. }
  destruct (run_loop_no_post evs _ H0 Hev) as (Hd & _ & Hk & _).
  split; [exact Hd|]. unfold start.
  destruct (serving (run_loop check evs (__start_server (__init__ now timeout port))))
    eqn:Hs; [now left|].
  right. rewrite Hd. split; [reflexivity|].
  apply Hk, closed_after_shutdown; [|exact Hs].
  apply run_loop_invariant, start_server_invariant.
Qed.

(** *** The status when [start()] returns *)

Lemma loop_step_status (l : Loop) (ev : event) :
  status_known l -> status_known (loop_step check l ev).
Proof.
  intros (H1 & H2 & H3). unfold loop_step.
  destruct (negb (serving l)); [repeat split; assumption|].
  destruct ev as [now|c|i].
  - destruct (guard_step_session now (server_self l) (guard l)) as (_ & Hcase).
    destruct (__time_out_shutdown now (server_self l) (guard l)) as [self' pc'].
    cbn [fst] in *. unfold status_known. cbn [server_self handlers].
    destruct Hcase as [[-> ->]| ->]; [auto|].
    split; [intros m [= <-]; now left|].
    split; [discriminate|].
    apply Forall_forall. intros h _ _. discriminate.
  - unfold status_known. cbn [server_self handlers]. repeat split; try assumption.
    apply Forall_app. split; [assumption|]. constructor; [|constructor].
    cbn. discriminate.
  - destruct (nth_error (handlers l) i) as [[c pc]|] eqn:Hn;
      [|repeat split; assumption].
    pose proof (handler_step_session check (server_self l) c pc) as H.
    pose proof (nth_error_Forall _ _ i (c, pc) (handlers l) H3 Hn) as Hpc.
    destruct (handler_step check (server_self l) c pc) as [[self' c'] pc'].
    cbn [fst snd] in *. unfold status_known. cbn [server_self handlers].
    destruct H as [(Hpc' & Hself)|[(_ & _ & m & Hm & Hself)|(-> & ->)]].
    + assert (E : msg self' = msg (server_self l)
                  /\ _keep_running self' = _keep_running (server_self l))
        by (destruct Hself as [->|[b ->]]; split; reflexivity).
      destruct E as [-> ->]. repeat split; try assumption.
      apply set_nth_Forall; [assumption|]. intros E. contradiction.
    + assert (E : msg self' = Some m)
        by (destruct Hself as [->|[d ->]]; reflexivity).
      rewrite E. split; [|split].
      * intros m' [= <-]. destruct Hm as [->| ->]; cbn; auto.
      * discriminate.
      * apply Forall_forall. intros h _ _. discriminate.
    + cbn [msg _keep_running set_connected set_keep_running].
      specialize (Hpc eq_refl). split; [assumption|]. split; [auto|].
      apply Forall_forall. intros h _ _. exact Hpc.
Qed.

(** X13: whenever [start()] returns, the status is set, to one of the
    three texts of the module: no run ends with [msg] still [None]. *)
Theorem start_returns_with_status (now timeout : Z) (port : N) (evs : list event)
    (d : option dict) :
  start check (__init__ now timeout port) evs = Some d ->
  exists m,
    msg (server_self (run_loop check evs
           (__start_server (__init__ now timeout port)))) = Some m
    /\ In m status_messages.
Proof.
  unfold start.
  assert (H : forall l, status_known l -> status_known (run_loop check evs l)).
  { induction evs as [|ev evs IH]; intros l Hl; [exact Hl|].
    rewrite run_loop_cons. apply IH, loop_step_status, Hl. }
  assert (H0 : status_known (__start_server (__init__ now timeout port))).
  { repeat split; cbn; try discriminate. constructor. }
  destruct (H _ H0) as (H1 & H2 & _).
  destruct (serving (run_loop check evs (__start_server (__init__ now timeout port))))
    eqn:Hs; [discriminate|]. intros _.
  assert (Hk : _keep_running
                 (server_self (run_loop check evs
                    (__start_server (__init__ now timeout port)))) = false).
  { apply closed_after_shutdown; [|exact Hs].
    apply run_loop_invariant, start_server_invariant. }
  specialize (H2 Hk).
  destruct (msg (server_self (run_loop check evs
                   (__start_server (__init__ now timeout port))))) as [m|];
    [|contradiction].
  exists m. split; [reflexivity | now apply H1].
Qed.
End ServerRuns.

Lemma post_ends_session_witness :
  start any_netloc example_server
    (post_exchange 0 [1; 2]%Z
       (connection (post_request (local_url ++ bytes_lit "#a=b")))
       [3]%Z [200]%Z [] 4)
  = Some (captured any_netloc
            (connection (post_request (local_url ++ bytes_lit "#a=b")))).
Proof.
  apply (post_ends_session any_netloc 0 120 1000).
  - vm_compute. reflexivity.
  - repeat first [apply Forall_nil | apply Forall_cons; [reflexivity|]].
Defined.

Lemma status_after_post_witness :
  start any_netloc example_server
    (post_exchange 0 [1; 2]%Z
       (connection (post_request (local_url ++ bytes_lit "#a=b"))) [3]%Z [4]%Z [5]%Z 120)
  = Some (Some [(str_lit "a", str_lit "b")])
  /\ msg (server_self
            (run_loop any_netloc
               (post_exchange 0 [1; 2]%Z
                  (connection (post_request (local_url ++ bytes_lit "#a=b")))
                  [3]%Z [4]%Z [5]%Z 120)
               (__start_server example_server)))
     = Some msg_timeout.
Proof.
  split; [vm_compute; reflexivity|].
  unfold example_server. rewrite (status_after_post any_netloc 0 120 1000).
  - reflexivity.
  - vm_compute. reflexivity.
  - repeat first [apply Forall_nil | apply Forall_cons; [reflexivity|]].
Defined.

Lemma without_post_only_timeout_witness :
  data (server_self
          (run_loop any_netloc
             [Wake 0; Accept (connection get_request); Resume 0; Resume 0; Resume 0;
              Resume 0; Accept (connection head_request); Wake 120]
             (__start_server example_server))) = None
  /\ (start any_netloc example_server
        [Wake 0; Accept (connection get_request); Resume 0; Resume 0; Resume 0;
         Resume 0; Accept (connection head_request); Wake 120] = None
      \/ (start any_netloc example_server
            [Wake 0; Accept (connection get_request); Resume 0; Resume 0; Resume 0;
             Resume 0; Accept (connection head_request); Wake 120] = Some None
          /\ msg (server_self
                    (run_loop any_netloc
                       [Wake 0; Accept (connection get_request); Resume 0; Resume 0;
                        Resume 0; Resume 0; Accept (connection head_request);
                        Wake 120]
                       (__start_server example_server)))
             = Some msg_timeout)).
Proof.
  apply (without_post_only_timeout any_netloc 0 120 1000).
  intros c H. cbn [In] in H.
  repeat (destruct H as [H|H]; [try discriminate H|]); try contradiction.
  - injection H as <-. vm_compute. reflexivity.
  - injection H as <-. vm_compute. reflexivity.
Defined.

Lemma start_returns_with_status_witness :
  exists m,
    msg (server_self
           (run_loop any_netloc
              [Wake 0; Accept (connection get_request); Resume 0; Resume 0; Resume 0;
               Resume 0; Wake 120]
              (__start_server example_server))) = Some m
    /\ In m status_messages.
Proof.
  apply (start_returns_with_status any_netloc 0 120 1000 _ None).
  vm_compute. reflexivity.
Defined.

(** ** Two connections at once *)

Section Overlap.
Variable check : str -> bool.

Lemma get_line_step (self : UrlFragmentFetchServer) (c : Connection) :
  is_get c = true ->
  handler_step check self c AtReadline = (self, after_request_line c, AtReaduntil).
Proof.
  unfold is_get. destruct (request_line c) as [text|] eqn:Hl; [|discriminate].
  intros Hg. now rewrite (request_line_step check _ _ _ Hl), Hg.
Qed.

(** X14: the activity flag is one flag, not a count of the connections.
    When two connections are open and the handler of one of them, a GET,
    comes to its end, the flag goes down although the other handler is
    still waiting for its request line; if the deadline has passed, the
    next wake-up of the timeout coroutine closes the server, [start()]
    returns [None], and the second connection, whatever it was about to
    send, is never read. *)
Theorem activity_flag_is_not_a_count (now timeout : Z) (port : N) (t0 : Z)
    (a b : Connection) (line : bytes) (rd : StreamReader) (late : Z) :
  is_get a = true ->
  readuntil CRLF (reader (after_request_line a)) = (Ok line, rd) ->
  (now + timeout <= late)%Z ->
  start check (__init__ now timeout port) (overlapping_exchanges t0 a b late)
  = Some None
  /\ nth_error
       (handlers (run_loop check (overlapping_exchanges t0 a b late)
                    (__start_server (__init__ now timeout port)))) 1
     = Some (b, AtReadline).
Proof.
  intros Hg Hr Hlate.
  set (srv := {| is_serving := true; close_calls := 0 |}).
  set (s0 := set_server (Some srv) (__init__ now timeout port)).
  assert (Hrun : exists a',
            run_loop check (overlapping_exchanges t0 a b late)
              (__start_server (__init__ now timeout port))
            = {| server_self :=
                   set_server (Some (server_close srv))
                     (timed_out (set_connected false
                        (set_connected true (set_connected true s0))));
                 guard := GuardClosed;
                 handlers := [(a', Returned); (b, AtReadline)] |}).
  { eexists. unfold overlapping_exchanges.
    change (__start_server (__init__ now timeout port))
      with {| server_self := s0; guard := GuardCreated; handlers := [] |}.
    rewrite run_loop_cons, (step_wake_created check s0 srv) by reflexivity.
    rewrite run_loop_cons, (step_accept check s0 srv) by reflexivity.
    rewrite run_loop_cons, (step_accept check s0 srv) by reflexivity.
    cbn [app].
    rewrite run_loop_cons.
    erewrite (step_resume check s0 srv _ _ 1 b Entry) by reflexivity.
    cbn [handler_step fst snd set_nth].
    rewrite run_loop_cons.
    erewrite (step_resume check _ srv _ _ 0 a Entry) by reflexivity.
    cbn [handler_step fst snd set_nth].
    rewrite run_loop_cons.
    erewrite (step_resume check _ srv _ _ 0 a AtReadline) by reflexivity.
    rewrite (get_line_step _ a Hg). cbn [fst snd set_nth].
    rewrite run_loop_cons.
    erewrite (step_resume check _ srv _ _ 0 (after_request_line a) AtReaduntil)
      by reflexivity.
    cbn [handler_step]. rewrite Hr. cbn [fst snd set_nth].
    rewrite run_loop_cons.
    erewrite (step_resume check _ srv _ _ 0 _ AtGetDrain) by reflexivity.
    cbn [handler_step fst snd set_nth].
    rewrite run_loop_cons.
    erewrite (step_wake_late check _ srv);
      [reflexivity | reflexivity | reflexivity | reflexivity |].
    apply Z.leb_le. exact Hlate. }
  destruct Hrun as [a' Hrun]. unfold start. rewrite Hrun. split; reflexivity.
Qed.
End Overlap.

Lemma activity_flag_is_not_a_count_witness :
  start any_netloc example_server
    (overlapping_exchanges 0 (connection get_request)
       (connection (post_request (local_url ++ bytes_lit "#a=b"))) 120)
  = Some None
  /\ nth_error
       (handlers
          (run_loop any_netloc
             (overlapping_exchanges 0 (connection get_request)
                (connection (post_request (local_url ++ bytes_lit "#a=b"))) 120)
             (__start_server example_server))) 1
     = Some (connection (post_request (local_url ++ bytes_lit "#a=b")), AtReadline).
Proof.
  apply (activity_flag_is_not_a_count any_netloc 0 120 1000 0
           (connection get_request)
           (connection (post_request (local_url ++ bytes_lit "#a=b")))
           (bytes_lit "Host: localhost:1000" ++ CRLF)
           {| buffer := bytes_lit "Accept: text/html" ++ CRLF ++ CRLF;
              chunk := 4096 |}
           120).
  - vm_compute. reflexivity.
  - vm_compute. reflexivity.
  - vm_compute. discriminate.
Defined.

(** ** The page, then the POST *)

Section Redirect.
Variable check : str -> bool.

(** X15: the flow the module is made for works: when the browser fetches
    the page and the page posts its URL back before the deadline, both
    connections are answered and closed, the next wake-up of the timeout
    coroutine closes the server, and [start()] returns what the POST
    brought, or [None] when it could not be parsed. *)
Theorem page_then_post_returns_data (now timeout : Z) (port : N) (t0 : Z)
    (a : Connection) (line : bytes) (rd : StreamReader) (w : list Z)
    (c : Connection) (late : Z) :
  is_get a = true ->
  readuntil CRLF (reader (after_request_line a)) = (Ok line, rd) ->
  Forall (fun t => (t < now + timeout)%Z) w ->
  is_post c = true ->
  start check (__init__ now timeout port) (redirect_flow t0 a w c late)
  = Some (captured check c)
  /\ Forall answered
       (handlers (run_loop check (redirect_flow t0 a w c late)
                    (__start_server (__init__ now timeout port)))).
Proof.
  intros Hg Hr Hw Hp.
  set (srv := {| is_serving := true; close_calls := 0 |}).
  set (s0 := set_server (Some srv) (__init__ now timeout port)).
  set (s1 := set_connected false (set_connected true s0)).
  set (s2 := post_outcome check c (set_connected true s1)).
  destruct (post_read_step check (set_connected true s1) c) as [c3 Hread].
  fold s2 in Hread.
  destruct (post_outcome_fields check c (set_connected true s1))
    as (C2 & S2 & K2 & T2).
  fold s2 in C2, S2, K2, T2. cbn in C2, S2, K2, T2.
  assert (D2 : data s2 = captured check c).
  { subst s2. unfold post_outcome, captured.
    now destruct (final_data check (post_data c)). }
  assert (Hrun : exists a',
            closed (writer a') = true
            /\ run_loop check (redirect_flow t0 a w c late)
                 (__start_server (__init__ now timeout port))
               = {| server_self :=
                      set_server (Some (server_close srv))
                        (if (now + timeout <=? late)%Z
                         then timed_out (set_connected false (set_keep_running false s2))
                         else set_connected false (set_keep_running false s2));
                    guard := GuardClosed;
                    handlers :=
                      [(a', Returned);
                       ({| reader := reader c3; writer := close (writer c3) |},
                        Returned)] |}).
  { eexists. split; cycle 1.
    - unfold redirect_flow.
      change (__start_server (__init__ now timeout port))
        with {| server_self := s0; guard := GuardCreated; handlers := [] |}.
      rewrite run_loop_app. rewrite 2 run_loop_cons.
      rewrite (step_wake_created check s0 srv) by reflexivity.
      rewrite (step_accept check s0 srv) by reflexivity. cbn [app].
      rewrite run_loop_cons.
      erewrite (step_resume check s0 srv _ _ 0 a Entry) by reflexivity.
      cbn [handler_step fst snd set_nth].
      rewrite run_loop_cons.
      erewrite (step_resume check _ srv _ _ 0 a AtReadline) by reflexivity.
      rewrite (get_line_step check _ a Hg). cbn [fst snd set_nth].
      rewrite run_loop_cons.
      erewrite (step_resume check _ srv _ _ 0 (after_request_line a) AtReaduntil)
        by reflexivity.
      cbn [handler_step]. rewrite Hr. cbn [fst snd set_nth].
      rewrite run_loop_cons.
      erewrite (step_resume check _ srv _ _ 0 _ AtGetDrain) by reflexivity.
      cbn [handler_step fst snd set_nth reader writer].
      change (run_loop check [] ?l) with l. fold s1.
      rewrite run_loop_app, (wakes_while_idle check w s1 srv) by reflexivity.
      rewrite (deadline_not_seen s1 w Hw).
      rewrite 2 run_loop_cons.
      rewrite (step_accept check s1 srv) by reflexivity. cbn [app].
      erewrite (step_resume check s1 srv _ _ 1 c Entry) by reflexivity.
      cbn [handler_step fst snd set_nth].
      rewrite run_loop_cons.
      erewrite (step_resume check _ srv _ _ 1 c AtReadline) by reflexivity.
      rewrite (post_line_step check _ c Hp). cbn [fst snd set_nth].
      rewrite run_loop_cons.
      erewrite (step_resume check _ srv _ _ 1 (after_request_line c) AtRead)
        by reflexivity.
      rewrite Hread. cbn [fst snd set_nth].
      rewrite run_loop_cons.
      erewrite (step_resume check s2 srv _ _ 1 c3 AtPostDrain)
        by (assumption || reflexivity).
      cbn [handler_step fst snd set_nth].
      rewrite run_loop_cons.
      erewrite (step_wake_done check _ srv) by (cbn; assumption || reflexivity).
      cbn [_timeout_time set_connected set_keep_running]. rewrite T2.
      reflexivity.
    - reflexivity. }
  destruct Hrun as (a' & Ha & Hrun). unfold start. rewrite Hrun. split.
  - unfold serving. cbn [server_self _server set_server server_close is_serving].
    rewrite <- D2. now destruct (now + timeout <=? late)%Z.
  - cbn [handlers]. repeat constructor. exact Ha.
Qed.
End Redirect.

Lemma page_then_post_returns_data_witness :
  start any_netloc example_server
    (redirect_flow 0 (connection get_request) [1; 60; 119]%Z
       (connection (post_request (local_url ++ bytes_lit "#a=b"))) 200)
  = Some (captured any_netloc
            (connection (post_request (local_url ++ bytes_lit "#a=b"))))
  /\ Forall answered
       (handlers
          (run_loop any_netloc
             (redirect_flow 0 (connection get_request) [1; 60; 119]%Z
                (connection (post_request (local_url ++ bytes_lit "#a=b"))) 200)
             (__start_server example_server))).
Proof.
  apply (page_then_post_returns_data any_netloc 0 120 1000 0
           (connection get_request)
           (bytes_lit "Host: localhost:1000" ++ CRLF)
           {| buffer := bytes_lit "Accept: text/html" ++ CRLF ++ CRLF;
              chunk := 4096 |}).
  - vm_compute. reflexivity.
  - vm_compute. reflexivity.
  - repeat first [apply Forall_nil | apply Forall_cons; [reflexivity|]].
  - vm_compute. reflexivity.
Defined.

